(** * SkillQuizzer: the quiz parser and the scoring step of [app.py]

    A shallow embedding of [parse_questions] (app.py, lines 76-108) and of
    the "Submit Answers" handler (app.py, lines 165-170), with the parts of
    Python's [str] and [re] they rely on.

    Text is a sequence of 8-bit characters (code points 0 to 255).  On this
    range [re.IGNORECASE] relates an ASCII letter of a pattern to its two
    ASCII cases only, and [str.isspace] / [\s] hold of the twelve code points
    listed in [isspace].  Beyond this range Python relates the letter i of a
    pattern to U+0130 and U+0131 as well, so that [(medium|hard)] also
    matches words that are not spelt in ASCII: what is stated below of the
    difficulty of a record is stated of the matched word, whatever it is,
    except where the input is given with the word spelt in ASCII.

    The score is a binary64 number in Python.  [submit_answers] keeps the
    exact quotient in its place; [score_stored] is the number that line 170
    stores, and the two are compared for the numbers of questions that the
    parser can return (one to seven). *)

From Stdlib Require Import List Ascii String NArith QArith Qabs Bool Arith Lia Floats.
From stdpp Require Import gmap.
Import ListNotations.

Local Open Scope list_scope.
Local Open Scope bool_scope.

(** ** Characters and Python's [str] methods *)

Definition text := list ascii.

Definition str (s : string) : text := list_ascii_of_string s.

Definition nl : ascii := "010"%char.

Definition code (c : ascii) : N := N_of_ascii c.

Definition between (lo hi n : N) : bool := ((lo <=? n) && (n <=? hi))%N.

(** [str.isspace] on one character, which is also the class [\s]. *)
Definition isspace (c : ascii) : bool :=
  between 9 13 (code c) || between 28 32 (code c)
  || (code c =? 133)%N || (code c =? 160)%N.

Definition lower_chr (c : ascii) : ascii :=
  if between 65 90 (code c) then ascii_of_N (code c + 32) else c.

Definition upper_chr (c : ascii) : ascii :=
  if between 97 122 (code c) then ascii_of_N (code c - 32) else c.

(** [str.upper] and [str.capitalize]; the parser applies them to text
    matched by [[A-D]] and by [(medium|hard)], that is to ASCII letters. *)
Definition upper (s : text) : text := map upper_chr s.

Definition capitalize (s : text) : text :=
  match s with
  | [] => []
  | c :: s' => upper_chr c :: map lower_chr s'
  end.

Fixpoint lstrip (s : text) : text :=
  match s with
  | c :: s' => if isspace c then lstrip s' else s
  | [] => []
  end.

Fixpoint rstrip (s : text) : text :=
  match s with
  | c :: s' =>
      match rstrip s' with
      | [] => if isspace c then [] else [c]
      | r => c :: r
      end
  | [] => []
  end.

(** [str.strip()] with no argument. *)
Definition strip (s : text) : text := rstrip (lstrip s).

Fixpoint starts_with (l s : text) : bool :=
  match l, s with
  | [], _ => true
  | a :: l', c :: s' => Ascii.eqb a c && starts_with l' s'
  | _ :: _, [] => false
  end.

(** [s.split(sep)] for a non-empty [sep]: [skip] counts the characters of
    a delimiter just found that are still to be passed over. *)
Fixpoint split_from (sep s : text) (skip : nat) : list text :=
  match s with
  | [] => [[]]
  | c :: s' =>
      match skip with
      | S k => split_from sep s' k
      | O =>
          if starts_with sep s then [] :: split_from sep s' (length sep - 1)
          else match split_from sep s' 0 with
               | p :: ps => (c :: p) :: ps
               | [] => [[c]]
               end
      end
  end.

Definition split (sep s : text) : list text := split_from sep s 0.

(** ** The fragment of [re] used by the parser *)

Record flags := { IGNORECASE : bool; DOTALL : bool }.

Inductive cset :=
| Dot
| Space
| Range (lo hi : ascii).

Inductive regex :=
| Lit (l : text)
| One (a : cset)
| Star (a : cset)
| Plus (a : cset)
| PlusLazy (a : cset)
| Alt (r1 r2 : regex)
| Cat (r1 r2 : regex)
| Group (r : regex).

Definition in_range (lo hi c : ascii) : bool := between (code lo) (code hi) (code c).

Definition cset_in (fl : flags) (a : cset) (c : ascii) : bool :=
  match a with
  | Dot => DOTALL fl || negb (Ascii.eqb c nl)
  | Space => isspace c
  | Range lo hi =>
      in_range lo hi c
      || (IGNORECASE fl && (in_range lo hi (lower_chr c) || in_range lo hi (upper_chr c)))
  end.

Definition chr_eq (fl : flags) (a c : ascii) : bool :=
  if IGNORECASE fl then Ascii.eqb (lower_chr a) (lower_chr c) else Ascii.eqb a c.

(** A match object: the captured groups in order, and the text that
    follows the match. *)
Definition match_obj : Type := list text * text.

Section Matcher.
Variable fl : flags.

Definition cont := text -> list text -> option match_obj.

Fixpoint m_lit (l : text) (k : cont) (s : text) (g : list text) : option match_obj :=
  match l with
  | [] => k s g
  | a :: l' =>
      match s with
      | c :: s' => if chr_eq fl a c then m_lit l' k s' g else None
      | [] => None
      end
  end.

(** Greedy repetition: the longest run first, then shorter ones. *)
Fixpoint m_star (a : cset) (k : cont) (s : text) (g : list text) : option match_obj :=
  match s with
  | c :: s' =>
      if cset_in fl a c then
        match m_star a k s' g with
        | Some r => Some r
        | None => k s g
        end
      else k s g
  | [] => k s g
  end.

(** Lazy repetition, at least once: the shortest run first. *)
Fixpoint m_plus_lazy (a : cset) (k : cont) (s : text) (g : list text) : option match_obj :=
  match s with
  | c :: s' =>
      if cset_in fl a c then
        match k s' g with
        | Some r => Some r
        | None => m_plus_lazy a k s' g
        end
      else None
  | [] => None
  end.

Definition m_one (a : cset) (k : cont) (s : text) (g : list text) : option match_obj :=
  match s with
  | c :: s' => if cset_in fl a c then k s' g else None
  | [] => None
  end.

Definition m_plus (a : cset) (k : cont) (s : text) (g : list text) : option match_obj :=
  match s with
  | c :: s' => if cset_in fl a c then m_star a k s' g else None
  | [] => None
  end.

(** Backtracking matcher in continuation-passing style. *)
Fixpoint rmatch (r : regex) (k : cont) : cont :=
  match r with
  | Lit l => m_lit l k
  | One a => m_one a k
  | Star a => m_star a k
  | Plus a => m_plus a k
  | PlusLazy a => m_plus_lazy a k
  | Alt r1 r2 =>
      fun s g =>
        match rmatch r1 k s g with
        | Some x => Some x
        | None => rmatch r2 k s g
        end
  | Cat r1 r2 => rmatch r1 (rmatch r2 k)
  | Group r' =>
      fun s g =>
        rmatch r' (fun s' g' => k s' (g' ++ [firstn (length s - length s') s])) s g
  end.

Definition accept : cont := fun s g => Some (g, s).

Definition match_here (r : regex) (s : text) : option match_obj :=
  rmatch r accept s [].

(** [re.search]: the first position at which the pattern matches. *)
Fixpoint re_search (r : regex) (s : text) : option match_obj :=
  match match_here r s with
  | Some m => Some m
  | None =>
      match s with
      | _ :: s' => re_search r s'
      | [] => None
      end
  end.

(** [re.findall]: successive non-overlapping matches, left to right. *)
Fixpoint findall_from (r : regex) (s : text) (skip : nat) : list (list text) :=
  match s with
  | [] => match skip, match_here r [] with
          | O, Some (g, _) => [g]
          | _, _ => []
          end
  | _ :: s' =>
      match skip with
      | S k => findall_from r s' k
      | O =>
          match match_here r s with
          | Some (g, rest) => g :: findall_from r s' (length s - length rest - 1)
          | None => findall_from r s' 0
          end
      end
  end.

Definition re_findall (r : regex) (s : text) : list (list text) :=
  findall_from r s 0.
End Matcher.

Definition flags0 : flags := {| IGNORECASE := false; DOTALL := false |}.
Definition flagsI : flags := {| IGNORECASE := true; DOTALL := false |}.
Definition flagsS : flags := {| IGNORECASE := false; DOTALL := true |}.

Definition cat (rs : list regex) : regex := fold_right Cat (Lit []) rs.

(** r"Difficulty:\s*(medium|hard)" *)
Definition re_difficulty : regex :=
  cat [Lit (str "Difficulty:"); Star Space;
       Group (Alt (Lit (str "medium")) (Lit (str "hard")))].

(** r"Question:\s*(.+?)\nOptions:" *)
Definition re_question : regex :=
  cat [Lit (str "Question:"); Star Space; Group (PlusLazy Dot);
       Lit (nl :: str "Options:")].

(** r"Options:\s*(.+?)\nCorrect:" *)
Definition re_options : regex :=
  cat [Lit (str "Options:"); Star Space; Group (PlusLazy Dot);
       Lit (nl :: str "Correct:")].

(** r"([A-D])\)\s*(.+)" *)
Definition re_option : regex :=
  cat [Group (One (Range "A" "D")); Lit (str ")"); Star Space; Group (Plus Dot)].

(** r"Correct:\s*([A-D])" *)
Definition re_correct : regex :=
  cat [Lit (str "Correct:"); Star Space; Group (One (Range "A" "D"))].

(** ** Exceptions *)

Inductive exn := AttributeError | ZeroDivisionError.

Inductive result (A : Type) :=
| Ok (a : A)
| Raise (e : exn).
Arguments Ok {A} a.
Arguments Raise {A} e.

Definition bind {A B : Type} (m : result A) (f : A -> result B) : result B :=
  match m with
  | Ok a => f a
  | Raise e => Raise e
  end.

Notation "x <- m ;; k" := (bind m (fun x => k))
  (at level 100, m at next level, right associativity).

(** [try: body except Exception: handler] *)
Definition try_except {A : Type} (body : result A) (handler : exn -> result A) : result A :=
  match body with
  | Ok a => Ok a
  | Raise e => handler e
  end.

(** [m.group(1)] where [m] is the value of [re.search]: on [None] the
    attribute lookup raises. *)
Definition group1 (m : option match_obj) : result text :=
  match m with
  | Some (g, _) => Ok (nth 0 g [])
  | None => Raise AttributeError
  end.

(** ** Question records and [parse_questions] *)

(** A [dict] with string keys, in insertion order. *)
Definition dict := list (text * text).

Fixpoint text_eqb (a b : text) : bool :=
  match a, b with
  | [], [] => true
  | x :: a', y :: b' => Ascii.eqb x y && text_eqb a' b'
  | _, _ => false
  end.

Fixpoint dict_set (d : dict) (k v : text) : dict :=
  match d with
  | [] => [(k, v)]
  | (k', v') :: d' => if text_eqb k' k then (k', v) :: d' else (k', v') :: dict_set d' k v
  end.

Definition dict_of (kvs : list (text * text)) : dict :=
  fold_left (fun d kv => dict_set d (fst kv) (snd kv)) kvs [].

Definition keys (d : dict) : list text := map fst d.

Record question := {
  difficulty : text;
  question_text : text;
  options : dict;
  answer : text
}.

Definition truthy (s : text) : bool :=
  match s with [] => false | _ => true end.

Definition all (bs : list bool) : bool := forallb (fun b => b) bs.

Definition delimiter : text := str "[Question_".

(** The body of the [try] statement for one block (lines 82-103). *)
Definition try_body (block : text) (questions : list question) : result (list question) :=
  d <- group1 (re_search flagsI re_difficulty block) ;;
  let q_difficulty := capitalize d in
  qt <- group1 (re_search flagsS re_question block) ;;
  let q_question := strip qt in
  ot <- group1 (re_search flagsS re_options block) ;;
  let options_text := strip ot in
  let q_options :=
    dict_of (map (fun opt => (upper (nth 0 opt []), strip (nth 1 opt [])))
                 (re_findall flags0 re_option options_text)) in
  a <- group1 (re_search flags0 re_correct block) ;;
  let q_answer := upper a in
  let q := {| difficulty := q_difficulty; question_text := q_question;
              options := q_options; answer := q_answer |} in
  if all [truthy q_question; Nat.eqb (length q_options) 4; truthy q_answer]
  then Ok (questions ++ [q])
  else Ok questions.

(** The [for] loop: a block whose body raises is skipped. *)
Fixpoint for_blocks (blocks : list text) (questions : list question)
  : result (list question) :=
  match blocks with
  | [] => Ok questions
  | block :: rest =>
      questions' <- try_except (try_body block questions) (fun _ => Ok questions) ;;
      for_blocks rest questions'
  end.

Definition parse_questions (t : text) : result (list question) :=
  let question_blocks := tl (split delimiter t) in
  questions <- for_blocks question_blocks [] ;;
  Ok (firstn 7 questions).

(** ** The session state and the [Submit Answers] handler (lines 165-170) *)

(** [st.session_state]: [questions] is [None] after a failed generation,
    [answers] maps question indices to the selected letter. *)
Record session := {
  questions : option (list question);
  answers : gmap nat text;
  score : Q
}.

(** [enumerate(l)] *)
Definition enumerate {A : Type} (l : list A) : list (nat * A) :=
  combine (seq 0 (length l)) l.

(** [answers.get(i, '')] *)
Definition get (answers : gmap nat text) (i : nat) : text :=
  default [] (answers !! i).

(** [a / b] on two integers; the quotient is kept exact, as a rational. *)
Definition truediv (a b : nat) : result Q :=
  if Nat.eqb b 0 then Raise ZeroDivisionError
  else Ok (inject_Z (Z.of_nat a) / inject_Z (Z.of_nat b))%Q.

(** The loop of lines 166-169. *)
Definition count_correct (qs : list question) (answers : gmap nat text) : nat :=
  fold_left
    (fun correct iq =>
       if text_eqb (get answers (fst iq)) (answer (snd iq)) then correct + 1 else correct)
    (enumerate qs) 0.

(** The guarded block: [button] is the value of [st.button("Submit Answers")],
    which is evaluated only when [questions] is truthy. *)
Definition submit_answers (st : session) (button : bool) : result session :=
  match questions st with
  | Some (q :: qs') =>
      if button then
        let qs := q :: qs' in
        let correct := count_correct qs (answers st) in
        r <- truediv correct (length qs) ;;
        Ok {| questions := questions st; answers := answers st; score := (r * 100)%Q |}
      else Ok st
  | _ => Ok st
  end.

(** [(correct / n) * 100] as Python evaluates it, in binary64. *)
Definition score_binary64 (correct n : nat) : float :=
  (PrimFloat.of_uint63 (Uint63.of_nat correct) / PrimFloat.of_uint63 (Uint63.of_nat n) * 100)%float.

(** [a / b] on two integers as Python evaluates it: the binary64 quotient. *)
Definition truediv_binary64 (a b : nat) : result float :=
  if Nat.eqb b 0 then Raise ZeroDivisionError
  else Ok (PrimFloat.of_uint63 (Uint63.of_nat a) / PrimFloat.of_uint63 (Uint63.of_nat b))%float.

(** Lines 166-170 as Python evaluates them: the number stored in [score]. *)
Definition score_stored (qs : list question) (answers : gmap nat text) : result float :=
  let correct := count_correct qs answers in
  r <- truediv_binary64 correct (length qs) ;;
  Ok (r * 100)%float.

(** The number that a finite binary64 value stands for. *)
Definition Q_of_float (f : float) : option Q :=
  match Prim2SF f with
  | S754_zero _ => Some 0%Q
  | S754_finite s m e => Some ((if s then -1 else 1) * inject_Z (Z.pos m) * Qpower 2 e)%Q
  | _ => None
  end.

(** The number of indices at which the stored answer is the correct
    letter of the question. *)
Definition num_right (qs : list question) (answers : gmap nat text) : nat :=
  length (List.filter
            (fun i => match nth_error qs i with
                      | Some q => text_eqb (get answers i) (answer q)
                      | None => false
                      end)
            (seq 0 (length qs))).

(** ** Vocabulary of the specification *)

(** [lit_prefix fl l s]: the literal [l] matches at the start of [s]. *)
Fixpoint lit_prefix (fl : flags) (l s : text) : bool :=
  match l, s with
  | [], _ => true
  | a :: l', c :: s' => chr_eq fl a c && lit_prefix fl l' s'
  | _ :: _, [] => false
  end.

(** [occurs P t]: [P] holds of some non-empty suffix of [t]. *)
Fixpoint occurs (P : text -> bool) (t : text) : bool :=
  match t with
  | [] => false
  | _ :: t' => P t || occurs P t'
  end.

(** [nostart P u s]: in [u ++ s], [P] holds at no position inside [u]. *)
Fixpoint nostart (P : text -> bool) (u s : text) : Prop :=
  match u with
  | [] => True
  | _ :: u' => P (u ++ s) = false /\ nostart P u' s
  end.

(** [l] and [x] differ at a position that both have. *)
Fixpoint disagree (fl : flags) (l x : text) : bool :=
  match l, x with
  | a :: l', c :: x' => negb (chr_eq fl a c) || disagree fl l' x'
  | _, _ => false
  end.

Fixpoint fixed_ok (fl : flags) (l f : text) : bool :=
  match f with
  | [] => true
  | _ :: f' => disagree fl l f && fixed_ok fl l f'
  end.

Definition has (l t : text) : bool := occurs (lit_prefix flags0 l) t.
Definition has_nocase (l t : text) : bool := occurs (lit_prefix flagsI l) t.

Definition nocase_eq (l d : text) : bool :=
  lit_prefix flagsI l d && Nat.eqb (length d) (length l).

(** A difficulty token: [medium] or [hard] in any mix of cases. *)
Definition is_difficulty (d : text) : bool :=
  nocase_eq (str "medium") d || nocase_eq (str "hard") d.

Definition is_AD (c : ascii) : bool := in_range "A" "D" c.

Definition not_nl (c : ascii) : bool := negb (Ascii.eqb c nl).

(** The text ends here or the line does. *)
Definition at_eol (s : text) : bool :=
  match s with
  | [] => true
  | c :: _ => Ascii.eqb c nl
  end.

Definition nonblank (t : text) : bool := existsb (fun c => negb (isspace c)) t.

(** A text that neither begins nor ends with a white space character. *)
Definition trimmed (t : text) : Prop :=
  match t with
  | [] => True
  | c :: _ => isspace c = false /\ isspace (List.last t c) = false
  end.

(** [trim_of t u]: [u] is [t] without the white space at its two ends. *)
Definition trim_of (t u : text) : Prop :=
  exists l r,
    t = l ++ u ++ r
    /\ forallb isspace l = true /\ forallb isspace r = true /\ trimmed u.


(** The exact percentage, and how far from it a stored score may be. *)
Definition percent (correct n : nat) : Q :=
  100 * inject_Z (Z.of_nat correct) / inject_Z (Z.of_nat n).

Definition rounding : Q := 1 # 100000000000000.

(** The stored score for [correct] right answers out of [n] is a number
    between 0 and 100, within [rounding] of the exact percentage, and is the
    exact percentage when that is a whole number. *)
Definition score_near (correct n : nat) : bool :=
  match Q_of_float (score_binary64 correct n) with
  | Some v =>
      Qle_bool 0 v && Qle_bool v 100
      && Qle_bool (Qabs (v - percent correct n)) rounding
      && (negb (Nat.eqb ((100 * correct) mod n) 0) || Qeq_bool v (percent correct n))
  | None => false
  end.

(** An option label of the pattern: a letter A to D and a closing
    parenthesis. *)
Definition option_label (s : text) : bool :=
  match s with
  | c :: p :: _ => is_AD c && Ascii.eqb ")" p
  | _ => false
  end.

(** ** Question blocks in the format of the prompt

    What follows the delimiter [[Question_]: the rest of the tag line, the
    four labelled fields, each on a line of its own, and whatever trails
    the answer letter.  [[Question_1]] has header [1]]. *)
Record block_src := {
  b_header : text;
  b_difficulty : text;
  b_question : text;
  b_lines : list (ascii * text);
  b_correct : ascii;
  b_trailer : text
}.

Definition option_line (lt : ascii * text) : text :=
  nl :: fst lt :: str ") " ++ snd lt.

Definition option_lines (ls : list (ascii * text)) : text :=
  flat_map option_line ls.

Definition render_head (b : block_src) (rest : text) : text :=
  b_header b ++ nl :: str "Difficulty: " ++ b_difficulty b
  ++ nl :: str "Question: " ++ b_question b
  ++ nl :: str "Options:" ++ option_lines (b_lines b) ++ rest.

Definition render (b : block_src) : text :=
  render_head b (nl :: str "Correct: " ++ b_correct b :: b_trailer b).

(** The same block with the [Correct:] line left out. *)
Definition render_no_correct (b : block_src) : text :=
  render_head b (nl :: b_trailer b).

Definition wf_header (h : text) : bool :=
  negb (has delimiter h) && negb (has_nocase (str "Difficulty:") h)
  && negb (has (str "Question:") h) && negb (has (str "Options:") h)
  && negb (has (str "Correct:") h).

Definition wf_question (q : text) : bool :=
  nonblank q && negb (has delimiter q)
  && negb (has (str "Options:") q) && negb (has (str "Correct:") q).

Definition wf_line (lt : ascii * text) : bool :=
  negb (isspace (fst lt)) && forallb not_nl (snd lt) && nonblank (snd lt)
  && negb (has delimiter (snd lt)) && negb (has (str "Correct:") (snd lt))
  && (is_AD (fst lt) || negb (occurs option_label (snd lt))).

(** The fields of a block do not contain the labels that the parser looks
    for after them, each option is one non-blank line, and there is at
    least one option line. *)
Definition wf_fields (b : block_src) : bool :=
  wf_header (b_header b) && is_difficulty (b_difficulty b)
  && wf_question (b_question b)
  && negb (Nat.eqb (length (b_lines b)) 0) && forallb wf_line (b_lines b)
  && negb (has delimiter (b_trailer b)).

Definition wf_block (b : block_src) : bool :=
  wf_fields b && is_AD (b_correct b).

(** A well-formed block: one option line for each of A, B, C, D. *)
Definition well_formed (b : block_src) : bool :=
  wf_block b
  && text_eqb (map fst (b_lines b)) (str "ABCD").

Definition entries (ls : list (ascii * text)) : list (text * text) :=
  map (fun lt => ([fst lt], strip (snd lt))) (List.filter (fun lt => is_AD (fst lt)) ls).

(** The record that a block stands for. *)
Definition record_of (b : block_src) : question :=
  {| difficulty := capitalize (b_difficulty b);
     question_text := strip (b_question b);
     options := dict_of (entries (b_lines b));
     answer := [b_correct b] |}.

Definition accepted (b : block_src) : list question :=
  if Nat.eqb (length (options (record_of b))) 4 then [record_of b] else [].

(** What one block adds to the list, [[]] when its body raises. *)
Definition block_out (block : text) : list question :=
  match try_body block [] with
  | Ok l => l
  | Raise _ => []
  end.

(** [pre] followed by the blocks, each after a delimiter. *)
Definition assemble (pre : text) (blocks : list text) : text :=
  pre ++ flat_map (fun b => delimiter ++ b) blocks.

(** The option lines as [strip] leaves them: the last one loses its
    trailing white space. *)
Fixpoint trim_last (ls : list (ascii * text)) : list (ascii * text) :=
  match ls with
  | [] => []
  | lt :: ls' =>
      match ls' with
      | [] => [(fst lt, rstrip (snd lt))]
      | _ => lt :: trim_last ls'
      end
  end.

Definition line_ok (lt : ascii * text) : bool :=
  forallb not_nl (snd lt) && nonblank (snd lt)
  && (is_AD (fst lt) || negb (occurs option_label (snd lt))).

Definition nl_free (fl : flags) (l : text) : bool :=
  forallb (fun x => negb (chr_eq fl x nl)) l && negb (Nat.eqb (length l) 0).

(** Monotone predicates: what holds of a text holds of its extensions. *)
Definition monotone (P : text -> bool) : Prop := forall x w, P x = true -> P (x ++ w) = true.

(** A label that cannot begin at the start of an option line, at its
    letter, or in the two characters after the letter. *)
Definition off_lines (l : text) : Prop :=
  forall c x,
    lit_prefix flags0 l (nl :: c :: ")"%char :: x) = false
    /\ lit_prefix flags0 l (c :: ")"%char :: x) = false
    /\ lit_prefix flags0 l (")"%char :: x) = false
    /\ lit_prefix flags0 l (" "%char :: x) = false.

(** The keys of an accepted options dictionary. *)
Definition letters : list text := [str "A"; str "B"; str "C"; str "D"].

(** What every record of the output satisfies, on 8-bit text. *)
Definition record_ok (q : question) : Prop :=
  (difficulty q = str "Medium" \/ difficulty q = str "Hard")
  /\ question_text q <> []
  /\ List.NoDup (keys (options q))
  /\ length (options q) = 4
  /\ incl (keys (options q)) letters
  /\ In (answer q) letters.

(** The same without the difficulty: what the patterns for the question,
    the options and the answer, and the validation of line 102, give. *)
Definition record_checked (q : question) : Prop :=
  question_text q <> []
  /\ List.NoDup (keys (options q))
  /\ length (options q) = 4
  /\ incl (keys (options q)) letters
  /\ In (answer q) letters.


(** The blocks of a partly malformed text: well-formed, without the
    [Correct:] line, or with three option lines only. *)
Inductive candidate :=
| Good (b : block_src)
| NoCorrect (b : block_src)
| ThreeOptions (b : block_src).

Definition render_candidate (c : candidate) : text :=
  match c with
  | Good b => render b
  | NoCorrect b => render_no_correct b
  | ThreeOptions b => render b
  end.

Definition wf_candidate (c : candidate) : bool :=
  match c with
  | Good b => well_formed b
  | NoCorrect b => wf_fields b && negb (has (str "Correct:") (b_trailer b))
  | ThreeOptions b => wf_block b && Nat.eqb (length (b_lines b)) 3
  end.

Definition is_good (c : candidate) : bool :=
  match c with Good _ => true | _ => false end.

Definition is_no_correct (c : candidate) : bool :=
  match c with NoCorrect _ => true | _ => false end.

Definition is_three_options (c : candidate) : bool :=
  match c with ThreeOptions _ => true | _ => false end.

Definition goods (cs : list candidate) : list block_src :=
  flat_map (fun c => match c with Good b => [b] | _ => [] end) cs.

(** ** Sample texts *)

Definition mk_block (n d q a b c e : string) (ans : ascii) : block_src :=
  {| b_header := str n ++ str "]";
     b_difficulty := str d;
     b_question := str q;
     b_lines := [("A"%char, str a); ("B"%char, str b); ("C"%char, str c); ("D"%char, str e)];
     b_correct := ans;
     b_trailer := [nl; nl] |}.

Definition quiz10 : list block_src :=
  [ mk_block "1" "medium" "What does a cache keep?" "Old logs" "Recent results" "Passwords" "Nothing" "B";
    mk_block "2" "medium" "Which layer routes packets?" "Network" "Session" "Physical" "Application" "A";
    mk_block "3" "Medium" "What is a mutex for?" "Sorting" "Hashing" "Mutual exclusion" "Paging" "C";
    mk_block "4" "medium" "Which structure is first in, first out?" "Stack" "Tree" "Heap" "Queue" "D";
    mk_block "5" "medium" "What does DNS resolve?" "Names to addresses" "Files to blocks" "Users to groups" "Ports to pids" "A";
    mk_block "6" "hard" "Why is quicksort quadratic in the worst case?" "Bad pivots" "Recursion" "Swaps" "Caches" "A";
    mk_block "7" "HARD" "Which property does two-phase commit give?" "Isolation" "Atomicity" "Liveness" "Fairness" "B";
    mk_block "8" "medium" "What is a page fault?" "A crash" "A missing page" "A bad block" "A lost packet" "B";
    mk_block "9" "medium" "What does fsync do?" "Flushes to disk" "Forks" "Frees memory" "Formats" "A";
    mk_block "10" "hard" "What bounds the height of a red-black tree?" "n" "log n" "sqrt n" "1" "B" ].

Definition quiz7 : list block_src := firstn 7 quiz10.

Definition intro : text := str "Here are the questions:
".

Definition drop_last_line (b : block_src) : block_src :=
  {| b_header := b_header b; b_difficulty := b_difficulty b; b_question := b_question b;
     b_lines := removelast (b_lines b); b_correct := b_correct b; b_trailer := b_trailer b |}.

(** Five good blocks, one without [Correct:], one with options A to C. *)
Definition mixed7 : list candidate :=
  match quiz7 with
  | [b1; b2; b3; b4; b5; b6; b7] =>
      [Good b1; NoCorrect b2; Good b3; Good b4; ThreeOptions (drop_last_line b5); Good b6; Good b7]
  | _ => []
  end.

(** A block with two lines labelled A. *)
Definition duplicate_text : text := str "[Question_1]
Difficulty: medium
Question: Which one?
Options:
A) first
A) second
B) x
C) y
D) z
Correct: A
".

Definition duplicate_block : block_src :=
  {| b_header := str "1]";
     b_difficulty := str "medium";
     b_question := str "Which one?";
     b_lines := [("A"%char, str "first"); ("A"%char, str "second"); ("B"%char, str "x");
                 ("C"%char, str "y"); ("D"%char, str "z")];
     b_correct := "A"%char;
     b_trailer := [nl] |}.

Definition duplicate_record : question :=
  {| difficulty := str "Medium";
     question_text := str "Which one?";
     options := [(str "A", str "second"); (str "B", str "x"); (str "C", str "y"); (str "D", str "z")];
     answer := str "A" |}.

(** A block with an invalid difficulty, and one with no [Difficulty:] line. *)
Definition easy_text : text := str "[Question_1]
Difficulty: easy
Question: Which one?
Options:
A) w
B) x
C) y
D) z
Correct: A
".


(** A block whose answer letter is E. *)
Definition answer_E_text : text := str "[Question_1]
Difficulty: medium
Question: Which one?
Options:
A) w
B) x
C) y
D) z
Correct: E
".

(** A block with a fifth option line, labelled E. *)
Definition five_lines : block_src :=
  {| b_header := str "1]";
     b_difficulty := str "medium";
     b_question := str "Which one?";
     b_lines := [("A"%char, str "w"); ("B"%char, str "x"); ("C"%char, str "y");
                 ("D"%char, str "z"); ("E"%char, str "v")];
     b_correct := "D"%char;
     b_trailer := [nl] |}.




(** A block with white space around its question and its options, the
    record it stands for, and that block in front of six blocks of
    [quiz10]. *)
Definition spaced_block : block_src :=
  {| b_header := str "1]";
     b_difficulty := str "hard";
     b_question := str "  Which one?   ";
     b_lines := [("A"%char, str " w "); ("B"%char, str "x  "); ("C"%char, str "y");
                 ("D"%char, str "  z   ")];
     b_correct := "B"%char;
     b_trailer := [nl] |}.

Definition spaced_record : question :=
  {| difficulty := str "Hard";
     question_text := str "Which one?";
     options := [(str "A", str "w"); (str "B", str "x"); (str "C", str "y"); (str "D", str "z")];
     answer := str "B" |}.




(** A block whose answer letter is E, as a source block. *)
Definition answer_E_block : block_src :=
  {| b_header := str "1]";
     b_difficulty := str "medium";
     b_question := str "Which one?";
     b_lines := [("A"%char, str "w"); ("B"%char, str "x"); ("C"%char, str "y");
                 ("D"%char, str "z")];
     b_correct := "E"%char;
     b_trailer := [nl] |}.

(** Four questions with the answers A, B, C, D and a session in which
    the third one is answered X. *)
Definition four_questions : list question :=
  map (fun a => {| difficulty := str "Medium"; question_text := str "Which one?";
                   options := [(str "A", str "w"); (str "B", str "x");
                               (str "C", str "y"); (str "D", str "z")];
                   answer := [a] |})
      (str "ABCD").

Definition session_ABXD : session :=
  {| questions := Some four_questions;
     answers := <[3 := str "D"]> (<[2 := str "X"]> (<[1 := str "B"]> (<[0 := str "A"]> ∅)));
     score := 0 |}.

Definition session_empty : session :=
  {| questions := Some []; answers := ∅; score := 0 |}.

(** ** The other functions of [app.py] *)

(** [extract_video_id] (lines 29-32).  [(?:r)?] is [r] or nothing, [r]
    first. *)
Definition opt (r : regex) : regex := Alt r (Lit []).

(** The class [[^&\n?#]]. *)
Definition id_char (c : ascii) : bool :=
  negb (Ascii.eqb c "&" || Ascii.eqb c nl || Ascii.eqb c "?" || Ascii.eqb c "#").

(** Greedy repetition of a class given by a predicate. *)
Fixpoint m_star_where (p : ascii -> bool) (k : cont) (s : text) (g : list text)
  : option match_obj :=
  match s with
  | c :: s' =>
      if p c then
        match m_star_where p k s' g with
        | Some r => Some r
        | None => k s g
        end
      else k s g
  | [] => k s g
  end.

Definition m_plus_where (p : ascii -> bool) (k : cont) (s : text) (g : list text)
  : option match_obj :=
  match s with
  | c :: s' => if p c then m_star_where p k s' g else None
  | [] => None
  end.

(** The pattern up to its group:
    r"(?:https?:\/\/)?(?:www\.)?(?:youtube\.com\/(?:watch\?v=|embed\/)|youtu.be\/)";
    the dot of [youtu.be] is not escaped. *)
Definition re_video_url : regex :=
  cat [opt (cat [Lit (str "http"); opt (Lit (str "s")); Lit (str "://")]);
       opt (Lit (str "www."));
       Alt (cat [Lit (str "youtube.com/");
                 Alt (Lit (str "watch?v=")) (Lit (str "embed/"))])
           (cat [Lit (str "youtu"); One Dot; Lit (str "be/")])].

(** The whole pattern at one position, with its group r"([^&\n?#]+)". *)
Definition video_id_here (s : text) : option match_obj :=
  rmatch flags0 re_video_url
    (fun s1 g1 =>
       m_plus_where id_char
         (fun s2 g2 => accept s2 (g2 ++ [firstn (length s1 - length s2) s1])) s1 g1)
    s [].

(** [re.search] for a pattern given by its matcher. *)
Fixpoint search_with (m : text -> option match_obj) (s : text) : option match_obj :=
  match m s with
  | Some x => Some x
  | None =>
      match s with
      | _ :: s' => search_with m s'
      | [] => None
      end
  end.

Definition extract_video_id (url : text) : option text :=
  match search_with video_id_here url with
  | Some (g, _) => Some (nth 0 g [])
  | None => None
  end.

(** [sep.join(l)] *)
Fixpoint join (sep : text) (l : list text) : text :=
  match l with
  | [] => []
  | x :: rest =>
      match rest with
      | [] => x
      | _ => x ++ sep ++ join sep rest
      end
  end.

(** [get_transcript] (lines 34-41); [fetch] is the transcript service,
    [None] when it raises. *)
Definition get_transcript (fetch : text -> option (list text)) (video_id : text)
  : option text :=
  match fetch video_id with
  | Some chunks => Some (join (str " ") chunks)
  | None => None
  end.

Definition prompt_head : text := str "**ROLE**: Expert MCQ Generator
**TASK**: Create 7 high-quality MCQs (5 medium, 2 hard) from this text:
".

Definition prompt_tail : text := str "

**FORMAT RULES**:
[Question_X]
Difficulty: medium/hard
Question: Clear question text
Options:
A) Plausible option
B) Plausible option
C) Plausible option
D) Plausible option
Correct: Letter only

**QUALITY CHECKS**:
1. Questions must test understanding
2. Options must be distinct
3. Avoid trivial/obvious questions
4. Ensure single correct answer

Generate exactly 7 questions following these rules:".

(** The f-string of lines 44-65. *)
Definition prompt (transcript : text) : text :=
  prompt_head ++ firstn 5000 transcript ++ prompt_tail.

(** [generate_questions] (lines 43-74); [llm] is the text of the model's
    response to a prompt, [None] when the call raises. *)
Definition generate_questions (llm : text -> option text) (transcript : text)
  : option (list question) :=
  match llm (prompt transcript) with
  | Some [] => None
  | Some response =>
      match parse_questions response with
      | Ok qs => Some qs
      | Raise _ => None
      end
  | None => None
  end.

(** ** One run of the script up to the score (lines 134-170) *)

Inductive failure := TypeError | IndexError | Uncaught (e : exn).

Inductive outcome (A : Type) :=
| Done (a : A)
| Fail (f : failure).
Arguments Done {A} a.
Arguments Fail {A} f.

(** Lines 22-27. *)
Definition initial_session : session :=
  {| questions := Some []; answers := ∅; score := 0 |}.

(** The option string of a radio button, f"{k}) {v}". *)
Definition label_of (kv : text * text) : text := fst kv ++ str ") " ++ snd kv.

(** [user_answer[0]] *)
Definition first_char (user_answer : option text) : outcome text :=
  match user_answer with
  | None => Fail TypeError
  | Some [] => Fail IndexError
  | Some (c :: _) => Done [c]
  end.

(** [score >= 70], the condition of the certificate (line 174). *)
Definition passed (st : session) : bool := Qle_bool 70 (score st).

Section Script.
(** The collaborators: the transcript service, the model, and [st.radio]
    for question [i], which gives the selected option, [None] when there
    is no option. *)
Variable fetch : text -> option (list text).
Variable llm : text -> option text.
Variable radio : nat -> list text -> option text.

(** Lines 135-147: the URL box and the [Generate Quiz] button. *)
Definition generate_quiz (st : session) (url : text) (button : bool) : session :=
  if truthy url then
    match extract_video_id url with
    | Some video_id =>
        if truthy video_id && button then
          match get_transcript fetch video_id with
          | Some transcript =>
              if truthy transcript then
                {| questions := generate_questions llm transcript;
                   answers := ∅;
                   score := 0 |}
              else st
          | None => st
          end
        else st
    | None => st
    end
  else st.

(** Lines 152-162: one radio button per question; its first character is
    stored as the answer. *)
Fixpoint display_from (iqs : list (nat * question)) (answers : gmap nat text)
  : outcome (gmap nat text) :=
  match iqs with
  | [] => Done answers
  | iq :: rest =>
      match first_char (radio (fst iq) (map label_of (options (snd iq)))) with
      | Done a => display_from rest (<[fst iq := a]> answers)
      | Fail f => Fail f
      end
  end.

Definition display_questions (st : session) : outcome session :=
  match questions st with
  | Some (q :: qs') =>
      match display_from (enumerate (q :: qs')) (answers st) with
      | Done a => Done {| questions := questions st; answers := a; score := score st |}
      | Fail f => Fail f
      end
  | _ => Done st
  end.

(** The script from the URL box to the score, for one interaction. *)
Definition rerun (st : session) (url : text) (generate submit : bool) : outcome session :=
  match display_questions (generate_quiz st url generate) with
  | Done st' =>
      match submit_answers st' submit with
      | Ok st'' => Done st''
      | Raise e => Fail (Uncaught e)
      end
  | Fail f => Fail f
  end.
End Script.

(** The contract of [st.radio]: the value is one of the options, and
    there is one whenever there are options. *)
Definition radio_contract (radio : nat -> list text -> option text) : Prop :=
  forall i opts,
    match radio i opts with
    | Some o => In o opts
    | None => opts = []
    end.

(** What the script keeps true of the session. *)
Definition valid_session (st : session) : Prop :=
  (forall qs, questions st = Some qs ->
              length qs <= 7 /\ forall q, In q qs -> record_checked q)
  /\ (forall i, is_Some (answers st !! i) -> i < length (default [] (questions st)))
  /\ (0 <= score st)%Q /\ (score st <= 100)%Q.

(** The key that the user selects for question [i]. *)
Definition selected (radio : nat -> list text -> option text) (i : nat) (q : question) : text :=
  match radio i (map label_of (options q)) with
  | Some (c :: _) => [c]
  | _ => []
  end.

(** [radio] that always gives the first option, as [st.radio] does
    until the user selects another one. *)
Definition radio_first (i : nat) (opts : list text) : option text := head opts.

(** The texts of a pattern: what a match of it can consume. *)
Fixpoint lang (fl : flags) (r : regex) (p : text) : Prop :=
  match r with
  | Lit l => lit_prefix fl l p = true /\ length p = length l
  | One a => exists c, p = [c] /\ cset_in fl a c = true
  | Star a => forallb (cset_in fl a) p = true
  | Plus a => p <> [] /\ forallb (cset_in fl a) p = true
  | PlusLazy a => p <> [] /\ forallb (cset_in fl a) p = true
  | Alt r1 r2 => lang fl r1 p \/ lang fl r2 p
  | Cat r1 r2 => exists p1 p2, p = p1 ++ p2 /\ lang fl r1 p1 /\ lang fl r2 p2
  | Group r' => lang fl r' p
  end.

Fixpoint groupless (r : regex) : bool :=
  match r with
  | Alt r1 r2 | Cat r1 r2 => groupless r1 && groupless r2
  | Group _ => false
  | _ => true
  end.

(** The text ends here, or goes on with one of [& \n ? #]. *)
Definition at_stop (rest : text) : bool :=
  match rest with
  | [] => true
  | c :: _ => negb (id_char c)
  end.

(** The number of questions for which the selected key is the answer. *)
Definition num_selected_right (radio : nat -> list text -> option text)
  (qs : list question) : nat :=
  length (List.filter
            (fun i => match nth_error qs i with
                      | Some q => text_eqb (selected radio i q) (answer q)
                      | None => false
                      end)
            (seq 0 (length qs))).

(** A model that answers every prompt with the text of one block. *)
Definition llm_sample (p : text) : option text := Some duplicate_text.

(** A transcript service that gives two chunks for every video. *)
Definition fetch_sample (video_id : text) : option (list text) :=
  Some [str "first chunk"; str "second chunk"].

(** * Lemmas *)

(** ** Literals *)

Lemma chr_eq_refl fl a : chr_eq fl a a = true.
Proof. unfold chr_eq. destruct (IGNORECASE fl); apply Ascii.eqb_refl. Qed.

Lemma m_lit_app fl l k s g : m_lit fl l k (l ++ s) g = k s g.
Proof.
  induction l as [|a l IH]; simpl; [reflexivity|].
  now rewrite chr_eq_refl.
Qed.

Lemma m_lit_none fl l k s g : lit_prefix fl l s = false -> m_lit fl l k s g = None.
Proof.
  revert s; induction l as [|a l IH]; intros [|c s]; simpl; try discriminate; auto.
  destruct (chr_eq fl a c); simpl; auto.
Qed.

Lemma m_lit_some fl l k s g r :
  m_lit fl l k s g = Some r ->
  exists p s', s = p ++ s' /\ length p = length l /\ lit_prefix fl l p = true /\ k s' g = Some r.
Proof.
  revert s; induction l as [|a l IH]; intros s H; simpl in H.
  - exists [], s. auto.
  - destruct s as [|c s]; [discriminate|].
    destruct (chr_eq fl a c) eqn:E; [|discriminate].
    destruct (IH _ H) as (p & s' & -> & Hl & Hp & Hk).
    exists (c :: p), s'. simpl. rewrite E, Hl, Hp. auto.
Qed.

Lemma lit_prefix_app fl l s : lit_prefix fl l (l ++ s) = true.
Proof. induction l; simpl; auto. now rewrite chr_eq_refl. Qed.

Lemma lit_prefix_length fl l s : lit_prefix fl l s = true -> length l <= length s.
Proof.
  revert s; induction l as [|a l IH]; intros [|c s] H; simpl in *; try lia; try discriminate.
  apply andb_true_iff in H as [_ H]. apply IH in H. lia.
Qed.

Lemma lit_prefix_starts_with l s : lit_prefix flags0 l s = starts_with l s.
Proof. revert s; induction l as [|a l IH]; intros [|c s]; simpl; auto. now rewrite IH. Qed.

Lemma disagree_app fl l x s : disagree fl l x = true -> lit_prefix fl l (x ++ s) = false.
Proof.
  revert x; induction l as [|a l IH]; intros [|c x] H; simpl in *; try discriminate.
  destruct (chr_eq fl a c); simpl in *; auto.
Qed.

(** A literal that matches at [t ++ c :: s] either matches inside [t] or
    has a character aligned with [c]. *)
Lemma lit_prefix_straddle fl l t c s :
  lit_prefix fl l (t ++ c :: s) = true ->
  lit_prefix fl l t = true \/ exists x, In x l /\ chr_eq fl x c = true.
Proof.
  revert t; induction l as [|a l IH]; intros t H; [now left|].
  destruct t as [|b t]; simpl in H.
  - apply andb_true_iff in H as [H _]. right. exists a. split; [now left|assumption].
  - apply andb_true_iff in H as [Hb H]. destruct (IH _ H) as [Hp | (x & Hx & Hc)].
    + left. simpl. now rewrite Hb, Hp.
    + right. exists x. split; [now right|assumption].
Qed.

(** ** Positions at which nothing starts *)

Lemma nostart_app P u v s : nostart P u (v ++ s) -> nostart P v s -> nostart P (u ++ v) s.
Proof.
  induction u as [|c u IH]; simpl; [auto|].
  intros [H1 H2] Hv. split; [|auto].
  now rewrite <- app_assoc.
Qed.

Lemma nostart_cons P c u s : P (c :: u ++ s) = false -> nostart P u s -> nostart P (c :: u) s.
Proof. simpl; auto. Qed.

Lemma nostart_nil P u : occurs P u = false -> nostart P u [].
Proof.
  induction u as [|c u IH]; simpl; [auto|].
  intros H. apply orb_false_iff in H as [H1 H2]. rewrite app_nil_r. auto.
Qed.

Lemma nostart_free fl l t c s :
  occurs (lit_prefix fl l) t = false ->
  forallb (fun x => negb (chr_eq fl x c)) (tl l) = true ->
  l <> [] ->
  nostart (lit_prefix fl l) t (c :: s).
Proof.
  intros Ho Hc Hl. induction t as [|b t IH]; simpl; [auto|].
  simpl in Ho. apply orb_false_iff in Ho as [H1 H2]. split; [|auto].
  destruct l as [|a l]; [congruence|]. simpl in *.
  destruct (chr_eq fl a b); simpl in *; [|reflexivity].
  destruct (lit_prefix fl l (t ++ c :: s)) eqn:E; [|reflexivity].
  apply lit_prefix_straddle in E as [E | (x & Hx & Hxc)]; [congruence|].
  rewrite forallb_forall in Hc. apply Hc in Hx. rewrite Hxc in Hx. discriminate.
Qed.

Lemma nostart_fixed fl l f s : fixed_ok fl l f = true -> nostart (lit_prefix fl l) f s.
Proof.
  induction f as [|c f IH]; simpl; [auto|].
  intros H. apply andb_true_iff in H as [H1 H2]. split; [|auto].
  apply (disagree_app fl l (c :: f) s H1).
Qed.

Lemma occurs_short fl l t : length t < length l -> occurs (lit_prefix fl l) t = false.
Proof.
  induction t as [|c t IH]; simpl; [auto|]. intros H.
  rewrite IH by lia. rewrite orb_false_r.
  destruct (lit_prefix fl l (c :: t)) eqn:E; [|reflexivity].
  apply lit_prefix_length in E. simpl in E. lia.
Qed.

(** ** Searching *)

Lemma re_search_cons fl r c s :
  re_search fl r (c :: s) =
  match match_here fl r (c :: s) with
  | Some m => Some m
  | None => re_search fl r s
  end.
Proof. reflexivity. Qed.

Lemma findall_from_cons fl r c s :
  findall_from fl r (c :: s) 0 =
  match match_here fl r (c :: s) with
  | Some (g, rest) => g :: findall_from fl r s (length (c :: s) - length rest - 1)
  | None => findall_from fl r s 0
  end.
Proof. reflexivity. Qed.

Lemma findall_from_pass fl r u s : findall_from fl r (u ++ s) (length u) = findall_from fl r s 0.
Proof. induction u as [|c u IH]; simpl; [destruct s|]; auto. Qed.

Lemma findall_from_hit fl r c u s g :
  match_here fl r (c :: u ++ s) = Some (g, s) ->
  findall_from fl r (c :: u ++ s) 0 = g :: findall_from fl r s 0.
Proof.
  intros H. rewrite findall_from_cons, H.
  replace (length (c :: u ++ s) - length s - 1) with (length u)
    by (simpl; rewrite length_app; lia).
  now rewrite findall_from_pass.
Qed.

Section Skip.
Variables (fl : flags) (r : regex) (P : text -> bool).
Hypothesis P_sound : forall x, P x = false -> match_here fl r x = None.

Lemma re_search_skip u s : nostart P u s -> re_search fl r (u ++ s) = re_search fl r s.
Proof.
  induction u as [|c u IH]; simpl nostart; [reflexivity|].
  intros [H1 H2]. change ((c :: u) ++ s) with (c :: u ++ s) in *.
  rewrite re_search_cons, (P_sound _ H1). auto.
Qed.

Lemma findall_skip u s :
  nostart P u s -> findall_from fl r (u ++ s) 0 = findall_from fl r s 0.
Proof.
  induction u as [|c u IH]; simpl nostart; [reflexivity|].
  intros [H1 H2]. change ((c :: u) ++ s) with (c :: u ++ s) in *.
  rewrite findall_from_cons, (P_sound _ H1). auto.
Qed.

Lemma re_search_none s : occurs P s = false -> P [] = false -> re_search fl r s = None.
Proof.
  intros Ho Hn. induction s as [|c s IH].
  - simpl. now rewrite (P_sound _ Hn).
  - simpl in Ho. apply orb_false_iff in Ho as [H1 H2].
    rewrite re_search_cons, (P_sound _ H1). auto.
Qed.
End Skip.

Lemma re_search_hit fl r s m : match_here fl r s = Some m -> re_search fl r s = Some m.
Proof. intros H. destruct s; simpl; now rewrite H. Qed.

(** ** Repetition and groups *)

Lemma m_star_run fl a k w s g r :
  forallb (cset_in fl a) w = true ->
  k s g = Some r ->
  match s with [] => true | c :: _ => negb (cset_in fl a c) end = true ->
  m_star fl a k (w ++ s) g = Some r.
Proof.
  intros Hw Hk Hs. induction w as [|c w IH]; simpl in *.
  - destruct s as [|c s]; simpl; [assumption|].
    apply negb_true_iff in Hs. now rewrite Hs.
  - apply andb_true_iff in Hw as [Hc Hw]. rewrite Hc, (IH Hw). reflexivity.
Qed.

Lemma m_plus_lazy_first fl a (K : cont) P c u v g r :
  (forall x, P x = false -> K x g = None) ->
  cset_in fl a c = true ->
  forallb (cset_in fl a) u = true ->
  nostart P u v ->
  K v g = Some r ->
  m_plus_lazy fl a K (c :: u ++ v) g = Some r.
Proof.
  intros HP Hc Hu Hn Hk. revert c Hc.
  induction u as [|c' u IH]; intros c Hc; simpl.
  - now rewrite Hc, Hk.
  - rewrite Hc. simpl in Hn, Hu. destruct Hn as [H1 H2].
    apply andb_true_iff in Hu as [Hc' Hu].
    rewrite (HP _ H1). apply IH; auto.
Qed.

Lemma firstn_consumed (u v : text) : firstn (length (u ++ v) - length v) (u ++ v) = u.
Proof.
  rewrite length_app. replace (length u + length v - length v) with (length u) by lia.
  rewrite firstn_app, firstn_all. replace (length u - length u) with 0 by lia.
  simpl. apply app_nil_r.
Qed.

Lemma m_lit_match fl l k p s g :
  lit_prefix fl l p = true -> length p = length l -> m_lit fl l k (p ++ s) g = k s g.
Proof.
  revert p; induction l as [|a l IH]; intros [|c p] Hp Hl; simpl in *; try discriminate; auto.
  apply andb_true_iff in Hp as [Hc Hp]. rewrite Hc. apply IH; auto.
Qed.

Lemma dotall_any c : cset_in flagsS Dot c = true.
Proof. reflexivity. Qed.

Lemma forallb_dotall u : forallb (cset_in flagsS Dot) u = true.
Proof. induction u; simpl; auto. Qed.

(** ** The five patterns at a position where they match *)

(** r"<l1>\s*(.+?)<l2>" at [l1], followed by white space [w], by the field
    [c :: u] and by the first [l2]. *)
Lemma match_lazy_field l1 l2 w c u rest :
  forallb isspace w = true ->
  isspace c = false ->
  nostart (lit_prefix flagsS l2) u (l2 ++ rest) ->
  match_here flagsS (cat [Lit l1; Star Space; Group (PlusLazy Dot); Lit l2])
    (l1 ++ w ++ c :: u ++ l2 ++ rest) = Some ([c :: u], rest).
Proof.
  intros Hw Hc Hn. unfold match_here, cat. simpl fold_right. simpl rmatch.
  rewrite m_lit_app. apply m_star_run; [exact Hw| |simpl; now rewrite Hc].
  apply m_plus_lazy_first with (P := lit_prefix flagsS l2); auto using forallb_dotall.
  - intros x Hx. now apply m_lit_none.
  - rewrite m_lit_app. simpl m_lit. unfold accept. simpl app at 1.
    change (c :: u ++ l2 ++ rest) with ((c :: u) ++ l2 ++ rest).
    change (S (length (u ++ l2 ++ rest))) with (length ((c :: u) ++ l2 ++ rest)).
    now rewrite firstn_consumed.
Qed.

Lemma firstn_one (c : ascii) (s : text) : firstn (length (c :: s) - length s) (c :: s) = [c].
Proof. apply (firstn_consumed [c] s). Qed.

Lemma m_plus_run fl a k c u s g r :
  cset_in fl a c = true ->
  forallb (cset_in fl a) u = true ->
  k s g = Some r ->
  match s with [] => true | x :: _ => negb (cset_in fl a x) end = true ->
  m_plus fl a k (c :: u ++ s) g = Some r.
Proof. intros Hc Hu Hk Hs. unfold m_plus. rewrite Hc. now apply m_star_run. Qed.

Lemma nocase_not_space a c :
  between 97 122 (code a) = true -> chr_eq flagsI a c = true -> isspace c = false.
Proof.
  destruct a as [[] [] [] [] [] [] [] []]; try discriminate; intros _;
    destruct c as [[] [] [] [] [] [] [] []]; try discriminate; reflexivity.
Qed.

Lemma is_AD_not_space c : is_AD c = true -> isspace c = false.
Proof. destruct c as [[] [] [] [] [] [] [] []]; try discriminate; reflexivity. Qed.

Lemma not_space_not_nl c : isspace c = false -> not_nl c = true.
Proof. destruct c as [[] [] [] [] [] [] [] []]; try discriminate; reflexivity. Qed.

Lemma nocase_h_not_m c : chr_eq flagsI "h" c = true -> chr_eq flagsI "m" c = false.
Proof. destruct c as [[] [] [] [] [] [] [] []]; try discriminate; reflexivity. Qed.

(** r"Difficulty:\s*(medium|hard)" at the label. *)
Lemma match_difficulty w d rest :
  forallb isspace w = true ->
  is_difficulty d = true ->
  match_here flagsI re_difficulty (str "Difficulty:" ++ w ++ d ++ rest) = Some ([d], rest).
Proof.
  intros Hw Hd. unfold match_here, re_difficulty, cat. cbn [fold_right rmatch].
  rewrite m_lit_app.
  unfold is_difficulty, nocase_eq in Hd.
  assert (Hsp : match d ++ rest with [] => true | c :: _ => negb (cset_in flagsI Space c) end = true).
  { destruct d as [|c d]; [discriminate|]. cbn [app cset_in].
    apply negb_true_iff.
    apply orb_true_iff in Hd as [H | H]; apply andb_true_iff in H as [H _];
      cbn [lit_prefix str list_ascii_of_string] in H; apply andb_true_iff in H as [H _];
      revert H; apply nocase_not_space; reflexivity. }
  apply m_star_run; [exact Hw| |exact Hsp].
  destruct (nocase_eq (str "medium") d) eqn:Em.
  - unfold nocase_eq in Em. apply andb_true_iff in Em as [E1 E2].
    apply Nat.eqb_eq in E2. rewrite (m_lit_match _ _ _ d rest _ E1 E2).
    cbn [m_lit]. unfold accept. cbn [app]. now rewrite firstn_consumed.
  - unfold nocase_eq in Em. rewrite Em in Hd. cbn [orb] in Hd.
    apply andb_true_iff in Hd as [E1 E2]. apply Nat.eqb_eq in E2.
    rewrite m_lit_none.
    + rewrite (m_lit_match _ _ _ d rest _ E1 E2).
      cbn [m_lit]. unfold accept. cbn [app]. now rewrite firstn_consumed.
    + destruct d as [|c d]; [discriminate|].
      cbn [lit_prefix str list_ascii_of_string app] in *.
      apply andb_true_iff in E1 as [E1 _]. now rewrite (nocase_h_not_m _ E1).
Qed.

(** r"Correct:\s*([A-D])" at the label. *)
Lemma match_correct w a rest :
  forallb isspace w = true ->
  is_AD a = true ->
  match_here flags0 re_correct (str "Correct:" ++ w ++ a :: rest) = Some ([[a]], rest).
Proof.
  intros Hw Ha. unfold match_here, re_correct, cat. cbn [fold_right rmatch].
  rewrite m_lit_app.
  apply m_star_run; [exact Hw| |cbn [cset_in]; now rewrite (is_AD_not_space _ Ha)].
  unfold m_one. cbn [cset_in IGNORECASE flags0 andb orb]. fold (is_AD a).
  rewrite Ha. cbn [orb m_lit]. unfold accept. cbn [app]. now rewrite firstn_one.
Qed.

(** r"([A-D])\)\s*(.+)" at an option label, with the rest of its line. *)
Lemma match_option l w c u rest :
  is_AD l = true ->
  forallb isspace w = true ->
  isspace c = false ->
  forallb not_nl u = true ->
  at_eol rest = true ->
  match_here flags0 re_option (l :: str ")" ++ w ++ c :: u ++ rest)
  = Some ([[l]; c :: u], rest).
Proof.
  intros Hl Hw Hc Hu Hr. unfold match_here, re_option, cat. cbn [fold_right rmatch].
  unfold m_one at 1. cbn [cset_in IGNORECASE flags0 andb orb]. fold (is_AD l).
  rewrite Hl. cbn [orb]. rewrite m_lit_app.
  apply m_star_run; [exact Hw| |cbn [cset_in]; now rewrite Hc].
  apply m_plus_run.
  - cbn [cset_in DOTALL flags0 orb]. now apply not_space_not_nl.
  - exact Hu.
  - cbn [m_lit]. unfold accept.
    change (c :: u ++ rest) with ((c :: u) ++ rest).
    rewrite firstn_consumed.
    now rewrite (firstn_one l (str ")" ++ w ++ (c :: u) ++ rest)).
  - destruct rest as [|x rest]; [reflexivity|]. cbn [at_eol] in Hr.
    cbn [cset_in DOTALL flags0 orb]. now rewrite Hr.
Qed.

(** ** [strip] *)

Lemma lstrip_split t : exists w, t = w ++ lstrip t /\ forallb isspace w = true.
Proof.
  induction t as [|c t (w & E & Hw)]; [now exists []|]. simpl.
  destruct (isspace c) eqn:Ec.
  - exists (c :: w). simpl. rewrite Ec, Hw. split; [now f_equal|reflexivity].
  - now exists [].
Qed.

Lemma lstrip_nonblank t :
  nonblank t = true -> exists c u, lstrip t = c :: u /\ isspace c = false.
Proof.
  induction t as [|c t IH]; simpl; [discriminate|].
  destruct (isspace c) eqn:Ec; simpl; [auto|]. intros _. now exists c, t.
Qed.

Lemma lstrip_head c u : isspace c = false -> lstrip (c :: u) = c :: u.
Proof. intros H. simpl. now rewrite H. Qed.

Lemma lstrip_lstrip t : lstrip (lstrip t) = lstrip t.
Proof.
  induction t as [|c t IH]; simpl; [reflexivity|].
  destruct (isspace c) eqn:Ec; [assumption|]. simpl. now rewrite Ec.
Qed.

Lemma rstrip_nonblank t : nonblank t = true -> rstrip t <> [].
Proof.
  induction t as [|c t IH]; simpl; [discriminate|].
  destruct (rstrip t) eqn:Er; [|discriminate].
  destruct (isspace c); simpl; [auto|discriminate].
Qed.

Lemma rstrip_blank t : nonblank t = false -> rstrip t = [].
Proof.
  induction t as [|c t IH]; simpl; [reflexivity|].
  intros H. apply orb_false_iff in H as [Hc Ht]. rewrite (IH Ht).
  apply negb_false_iff in Hc. now rewrite Hc.
Qed.

Lemma rstrip_app x t : nonblank t = true -> rstrip (x ++ t) = x ++ rstrip t.
Proof.
  intros H. induction x as [|c x IH]; simpl; [reflexivity|].
  rewrite IH. destruct (x ++ rstrip t) eqn:E; [|reflexivity].
  apply app_eq_nil in E as [_ E]. now apply rstrip_nonblank in H.
Qed.

Lemma nonblank_app_r x t : nonblank t = true -> nonblank (x ++ t) = true.
Proof. unfold nonblank. intros H. rewrite existsb_app. now rewrite H, orb_true_r. Qed.

Lemma lstrip_rstrip t : lstrip (rstrip t) = rstrip (lstrip t).
Proof.
  induction t as [|c t IH]; [reflexivity|].
  destruct (isspace c) eqn:Ec.
  - simpl. rewrite Ec. destruct (rstrip t) eqn:Er.
    + rewrite <- IH. reflexivity.
    + rewrite <- IH. simpl. now rewrite Ec.
  - simpl lstrip at 2. rewrite Ec. simpl.
    destruct (rstrip t); simpl; rewrite ?Ec; simpl; rewrite ?Ec; reflexivity.
Qed.

Lemma rstrip_rstrip t : rstrip (rstrip t) = rstrip t.
Proof.
  induction t as [|c t IH]; [reflexivity|]. simpl.
  destruct (rstrip t) as [|a r] eqn:Er.
  - destruct (isspace c) eqn:Ec; simpl; [reflexivity|now rewrite Ec].
  - change (rstrip (c :: a :: r)) with
      (match rstrip (a :: r) with [] => if isspace c then [] else [c] | r' => c :: r' end).
    now rewrite IH.
Qed.

Lemma strip_lstrip t : strip (lstrip t) = strip t.
Proof. unfold strip. now rewrite lstrip_lstrip. Qed.

Lemma strip_rstrip t : strip (rstrip t) = strip t.
Proof. unfold strip. now rewrite lstrip_rstrip, rstrip_rstrip. Qed.

Lemma nonblank_rstrip t : nonblank (rstrip t) = nonblank t.
Proof.
  induction t as [|c t IH]; [reflexivity|]. simpl.
  destruct (rstrip t) as [|a r] eqn:Er.
  - simpl in IH. rewrite <- IH, orb_false_r.
    destruct (isspace c) eqn:Ec; simpl; [reflexivity|now rewrite Ec].
  - change (nonblank (c :: a :: r)) with (negb (isspace c) || nonblank (a :: r)).
    now rewrite IH.
Qed.

Lemma strip_nonblank t : nonblank t = true -> strip t <> [].
Proof.
  intros H. unfold strip. apply rstrip_nonblank.
  destruct (lstrip_nonblank t H) as (c & u & -> & Hc). simpl. now rewrite Hc.
Qed.

(** [rstrip] keeps a prefix. *)
Lemma rstrip_prefix t : exists w, t = rstrip t ++ w.
Proof.
  induction t as [|c t (w & E)]; [now exists []|]. simpl.
  destruct (rstrip t) as [|a r] eqn:Er.
  - destruct (isspace c); [now exists (c :: t)|]. exists t. reflexivity.
  - exists w. simpl in *. now f_equal.
Qed.

(** ** Skipping the text in front of a label *)

Lemma cat_lit_none fl l rs x :
  lit_prefix fl l x = false -> match_here fl (cat (Lit l :: rs)) x = None.
Proof. intros H. unfold match_here, cat. cbn [fold_right rmatch]. now apply m_lit_none. Qed.

Lemma search_skip fl l rs u s :
  nostart (lit_prefix fl l) u s ->
  re_search fl (cat (Lit l :: rs)) (u ++ s) = re_search fl (cat (Lit l :: rs)) s.
Proof. apply re_search_skip. intros x. apply cat_lit_none. Qed.

Lemma search_skip_fixed fl l rs f s :
  fixed_ok fl l f = true ->
  re_search fl (cat (Lit l :: rs)) (f ++ s) = re_search fl (cat (Lit l :: rs)) s.
Proof. intros H. apply search_skip. now apply nostart_fixed. Qed.

Lemma nostart_line fl l t s :
  occurs (lit_prefix fl l) t = false ->
  nl_free fl l = true ->
  nostart (lit_prefix fl l) t (nl :: s).
Proof.
  intros Ho Hl. unfold nl_free in Hl. apply andb_true_iff in Hl as [Hl Hn].
  destruct l as [|a l]; [discriminate|]. simpl in Hl.
  apply andb_true_iff in Hl as [_ Hl]. apply nostart_free; auto; discriminate.
Qed.

Lemma nl_free_head fl l s : nl_free fl l = true -> lit_prefix fl l (nl :: s) = false.
Proof.
  unfold nl_free. intros Hl. apply andb_true_iff in Hl as [Hl Hn].
  destruct l as [|a l]; [discriminate|]. simpl in *.
  apply andb_true_iff in Hl as [Ha _]. apply negb_true_iff in Ha. now rewrite Ha.
Qed.

Lemma search_skip_line fl l rs t s :
  occurs (lit_prefix fl l) t = false ->
  nl_free fl l = true ->
  re_search fl (cat (Lit l :: rs)) (t ++ nl :: s) = re_search fl (cat (Lit l :: rs)) s.
Proof.
  intros Ho Hl. change (t ++ nl :: s) with (t ++ [nl] ++ s).
  rewrite app_assoc. apply search_skip. apply nostart_app.
  - now apply nostart_line.
  - simpl. split; [now apply nl_free_head|exact I].
Qed.

Lemma lit_prefix_flags fl fl' l s :
  IGNORECASE fl = IGNORECASE fl' -> lit_prefix fl l s = lit_prefix fl' l s.
Proof.
  intros E. revert s; induction l as [|a l IH]; intros [|c s]; simpl; auto.
  unfold chr_eq. now rewrite E, IH.
Qed.

Lemma occurs_ext (P Q : text -> bool) t : (forall x, P x = Q x) -> occurs P t = occurs Q t.
Proof. intros E. induction t as [|c t IH]; simpl; [reflexivity|]. now rewrite E, IH. Qed.

Lemma has_flags fl l t :
  IGNORECASE fl = false -> has l t = false -> occurs (lit_prefix fl l) t = false.
Proof.
  intros E H. unfold has in H. rewrite <- H. apply occurs_ext.
  intros x. now apply lit_prefix_flags.
Qed.

Lemma occurs_app_r P u t : occurs P (u ++ t) = false -> occurs P t = false.
Proof.
  induction u as [|c u IH]; simpl; [auto|]. intros H.
  apply orb_false_iff in H as [_ H]. auto.
Qed.

Lemma occurs_tail fl a l t :
  occurs (lit_prefix fl l) t = false -> occurs (lit_prefix fl (a :: l)) t = false.
Proof.
  induction t as [|c t IH]; cbn [occurs]; [auto|]. intros H.
  apply orb_false_iff in H as [H1 H2]. rewrite (IH H2), orb_false_r.
  cbn [lit_prefix]. destruct (chr_eq fl a c); [|reflexivity]. cbn [andb].
  destruct t as [|c' t]; [now destruct l|].
  simpl in H2. now apply orb_false_iff in H2 as [H2 _].
Qed.

Lemma lit_prefix_monotone fl l : monotone (lit_prefix fl l).
Proof.
  intros x w. revert x; induction l as [|a l IH]; intros [|c x] H; simpl in *; auto; try discriminate.
  apply andb_true_iff in H as [H1 H2]. now rewrite H1, IH.
Qed.

Lemma option_label_monotone : monotone option_label.
Proof. intros [|c [|p x]] w H; simpl in *; auto; discriminate. Qed.

Lemma occurs_prefix P p w : monotone P -> occurs P (p ++ w) = false -> occurs P p = false.
Proof.
  intros HP. induction p as [|c p IH]; simpl; [reflexivity|]. intros H.
  apply orb_false_iff in H as [H1 H2]. rewrite (IH H2), orb_false_r.
  destruct (P (c :: p)) eqn:E; [|reflexivity].
  apply (HP _ w) in E. simpl in E. congruence.
Qed.

Lemma is_difficulty_length d : is_difficulty d = true -> length d <= 6.
Proof.
  unfold is_difficulty, nocase_eq. intros H.
  apply orb_true_iff in H as [H | H]; apply andb_true_iff in H as [_ H];
    apply Nat.eqb_eq in H; rewrite H; simpl; lia.
Qed.

(** ** The labels against the option lines *)

Ltac bool_hyps :=
  repeat match goal with
    | H : _ && _ = true |- _ => apply andb_true_iff in H; destruct H
    | H : negb _ = true |- _ => apply negb_true_iff in H
    end.

Lemma option_lines_next ls s : exists y, option_lines ls ++ nl :: s = nl :: y.
Proof. destruct ls as [|lt ls]; simpl; eauto. Qed.

Lemma lines_nostart l ls s :
  off_lines l ->
  forallb (fun x => negb (chr_eq flags0 x nl)) (tl l) = true ->
  l <> [] ->
  forallb (fun lt => negb (has l (snd lt))) ls = true ->
  nostart (lit_prefix flags0 l) (option_lines ls) (nl :: s).
Proof.
  intros Hoff Hnl Hne. induction ls as [|[c t] ls IH]; intros H; [exact I|].
  cbn [forallb snd] in H. bool_hyps.
  change (option_lines ((c, t) :: ls)) with (option_line (c, t) ++ option_lines ls).
  apply nostart_app; [|auto].
  destruct (option_lines_next ls s) as (y & ->).
  destruct (Hoff c (" "%char :: t ++ nl :: y)) as (H1 & H2 & H3 & _).
  destruct (Hoff c (t ++ nl :: y)) as (_ & _ & _ & H4).
  unfold option_line. cbn [fst snd str list_ascii_of_string app].
  repeat (apply nostart_cons; [assumption|]).
  now apply nostart_free.
Qed.

Lemma off_lines_correct : off_lines (str "Correct:").
Proof.
  intros c x. repeat split; try reflexivity; cbn; apply andb_false_r.
Qed.

Lemma off_lines_nl_correct : off_lines (nl :: str "Correct:").
Proof.
  intros c x. repeat split; try reflexivity; cbn; apply andb_false_r.
Qed.

Lemma off_lines_delimiter : off_lines delimiter.
Proof.
  intros c x. repeat split; try reflexivity; cbn; apply andb_false_r.
Qed.

(** ** The four searches on a rendered block *)

Lemma group1_hit fl r s g rest :
  match_here fl r s = Some (g, rest) -> group1 (re_search fl r s) = Ok (nth 0 g []).
Proof. intros H. now rewrite (re_search_hit _ _ _ _ H). Qed.

Lemma search_difficulty_render b rest :
  wf_fields b = true ->
  group1 (re_search flagsI re_difficulty (render_head b rest)) = Ok (b_difficulty b).
Proof.
  intros H. unfold wf_fields, wf_header in H. bool_hyps.
  unfold render_head, re_difficulty.
  rewrite search_skip_line; [|assumption|reflexivity].
  refine (group1_hit _ _ _ [_] _ _).
  now apply (match_difficulty [" "%char]).
Qed.

Lemma nostart_ext (P Q : text -> bool) u s :
  (forall x, P x = Q x) -> nostart P u s -> nostart Q u s.
Proof.
  intros E. induction u as [|c u IH]; simpl; [auto|].
  intros [H1 H2]. rewrite <- E. auto.
Qed.

Lemma search_skip_nl fl l rs s :
  nl_free fl l = true ->
  re_search fl (cat (Lit l :: rs)) (nl :: s) = re_search fl (cat (Lit l :: rs)) s.
Proof.
  intros H. rewrite re_search_cons, cat_lit_none; [reflexivity|].
  now apply nl_free_head.
Qed.

Lemma difficulty_lacks fl l d :
  is_difficulty d = true -> 6 < length l -> occurs (lit_prefix fl l) d = false.
Proof. intros Hd Hl. apply occurs_short. apply is_difficulty_length in Hd. lia. Qed.

Ltac skip_text :=
  rewrite search_skip_line;
  [ | first [ assumption
            | apply has_flags; [reflexivity | assumption]
            | apply difficulty_lacks; [assumption | simpl; lia] ]
    | reflexivity ].

Ltac skip_fixed f := rewrite (search_skip_fixed _ _ _ f) by reflexivity.

Lemma search_question_render b rest :
  wf_fields b = true ->
  group1 (re_search flagsS re_question (render_head b rest)) = Ok (lstrip (b_question b)).
Proof.
  intros H. unfold wf_fields, wf_header, wf_question in H. bool_hyps.
  unfold render_head, re_question.
  skip_text. skip_fixed (str "Difficulty: "). skip_text.
  destruct (lstrip_split (b_question b)) as (w & Eq & Hw).
  destruct (lstrip_nonblank (b_question b)) as (c & u & Eu & Hc); [assumption|].
  rewrite Eu in *. rewrite Eq at 1.
  refine (eq_trans (f_equal (fun x => group1 (re_search _ _ x)) _)
            (group1_hit _ _ _ [_] _
               (match_lazy_field (str "Question:") (nl :: str "Options:")
                  (" "%char :: w) c u (option_lines (b_lines b) ++ rest) _ Hc _))).
  - cbn [str list_ascii_of_string app]. now rewrite <- app_assoc.
  - cbn [forallb]. now rewrite Hw.
  - apply nostart_free; [|reflexivity|discriminate].
    apply occurs_tail. apply has_flags; [reflexivity|].
    match goal with Ho : has (str "Options:") _ = false |- _ => rewrite Eq in Ho; unfold has in * end.
    match goal with Ho : occurs _ (w ++ c :: u) = false |- _ =>
      apply occurs_app_r in Ho; simpl in Ho; apply orb_false_iff in Ho as [_ Ho] end.
    assumption.
Qed.

Lemma lines_lack_tail a l (ls : list (ascii * text)) :
  forallb (fun lt => negb (has l (snd lt))) ls = true ->
  forallb (fun lt => negb (has (a :: l) (snd lt))) ls = true.
Proof.
  intros H. rewrite forallb_forall in *. intros lt Hin.
  specialize (H lt Hin). bool_hyps. apply negb_true_iff. now apply occurs_tail.
Qed.

Lemma wf_lines_lack_correct ls :
  forallb wf_line ls = true ->
  forallb (fun lt => negb (has (str "Correct:") (snd lt))) ls = true.
Proof.
  intros H. rewrite forallb_forall in *. intros lt Hin.
  specialize (H lt Hin). unfold wf_line in H. bool_hyps. now apply negb_true_iff.
Qed.

Lemma wf_lines_lack_delimiter ls :
  forallb wf_line ls = true ->
  forallb (fun lt => negb (has delimiter (snd lt))) ls = true.
Proof.
  intros H. rewrite forallb_forall in *. intros lt Hin.
  specialize (H lt Hin). unfold wf_line in H. bool_hyps. now apply negb_true_iff.
Qed.

Lemma search_options_render b rest :
  wf_fields b = true ->
  group1 (re_search flagsS re_options
            (render_head b (nl :: str "Correct:" ++ rest)))
  = Ok (tl (option_lines (b_lines b))).
Proof.
  intros H. unfold wf_fields, wf_header, wf_question in H. bool_hyps.
  unfold render_head, re_options.
  skip_text. skip_fixed (str "Difficulty: "). skip_text.
  skip_fixed (str "Question: "). skip_text.
  pose proof (lines_nostart (nl :: str "Correct:") (b_lines b) (str "Correct:" ++ rest)
                off_lines_nl_correct eq_refl ltac:(discriminate)
                (lines_lack_tail _ _ _ (wf_lines_lack_correct _ ltac:(eassumption)))) as Hn.
  destruct (b_lines b) as [|[l t] ls]; [discriminate|].
  match goal with Hl : forallb wf_line _ = true |- _ =>
    cbn [forallb] in Hl; apply andb_true_iff in Hl as [Hl _];
    unfold wf_line in Hl; cbn [fst snd] in Hl end.
  bool_hyps.
  change (option_lines ((l, t) :: ls))
    with (nl :: l :: str ") " ++ t ++ option_lines ls) in *.
  destruct Hn as (_ & _ & Hn).
  change (group1 (re_search flagsS
            (cat [Lit (str "Options:"); Star Space; Group (PlusLazy Dot);
                  Lit (nl :: str "Correct:")])
            (str "Options:" ++ [nl] ++ l :: (str ") " ++ t ++ option_lines ls)
               ++ (nl :: str "Correct:") ++ rest))
          = Ok (nth 0 [l :: str ") " ++ t ++ option_lines ls] [])).
  apply (group1_hit _ _ _ _ rest), match_lazy_field.
  - reflexivity.
  - assumption.
  - revert Hn. apply nostart_ext. intros x. now apply lit_prefix_flags.
Qed.

(** The search for r"Correct:\s*([A-D])" finds nothing before the text
    that follows the option lines. *)
Lemma search_correct_head b rest :
  wf_fields b = true ->
  re_search flags0 re_correct (render_head b (nl :: rest))
  = re_search flags0 re_correct rest.
Proof.
  intros H. unfold wf_fields, wf_header, wf_question in H. bool_hyps.
  unfold render_head, re_correct.
  skip_text. skip_fixed (str "Difficulty: "). skip_text.
  skip_fixed (str "Question: "). skip_text. skip_fixed (str "Options:").
  rewrite search_skip.
  - now apply search_skip_nl.
  - apply lines_nostart; [apply off_lines_correct|reflexivity|discriminate|].
    now apply wf_lines_lack_correct.
Qed.

Lemma search_correct_render b :
  wf_block b = true ->
  group1 (re_search flags0 re_correct (render b)) = Ok [b_correct b].
Proof.
  intros H. unfold wf_block in H. bool_hyps. unfold render.
  rewrite search_correct_head by assumption.
  refine (group1_hit _ _ _ [_] _ _).
  now apply (match_correct [" "%char]).
Qed.

Lemma search_correct_none b :
  wf_fields b = true ->
  has (str "Correct:") (b_trailer b) = false ->
  re_search flags0 re_correct (render_no_correct b) = None.
Proof.
  intros H Ht. unfold render_no_correct. rewrite search_correct_head by assumption.
  apply re_search_none with (P := lit_prefix flags0 (str "Correct:")).
  - intros x. apply cat_lit_none.
  - exact Ht.
  - reflexivity.
Qed.

(** ** [re.findall] on the option lines *)

Lemma option_none x : option_label x = false -> match_here flags0 re_option x = None.
Proof.
  unfold match_here, re_option, cat. cbn [fold_right rmatch]. unfold m_one.
  destruct x as [|c [|p x]]; cbn [option_label]; intros H; [reflexivity| |].
  - destruct (cset_in flags0 (Range "A" "D") c); reflexivity.
  - cbn [cset_in IGNORECASE flags0 andb]. rewrite orb_false_r. fold (is_AD c).
    destruct (is_AD c); [|reflexivity]. cbn [andb] in H.
    cbn [str list_ascii_of_string m_lit chr_eq IGNORECASE flags0]. now rewrite H.
Qed.

Lemma at_eol_false rest : at_eol rest = true -> forall c, option_label (c :: rest) = false.
Proof.
  destruct rest as [|x rest]; intros H c; cbn [option_label]; [reflexivity|].
  cbn [at_eol] in H. apply Ascii.eqb_eq in H as ->. apply andb_false_r.
Qed.

Lemma nostart_option t rest :
  occurs option_label t = false -> at_eol rest = true -> nostart option_label t rest.
Proof.
  intros Ho Hr. induction t as [|c t IH]; [exact I|].
  cbn [occurs] in Ho. apply orb_false_iff in Ho as [H1 H2].
  split; [|auto]. destruct t as [|p t]; [now apply at_eol_false|exact H1].
Qed.

Lemma at_eol_lines ls : at_eol (option_lines ls) = true.
Proof. destruct ls; reflexivity. Qed.

Lemma findall_lines ls :
  forallb line_ok ls = true ->
  findall_from flags0 re_option (option_lines ls) 0
  = map (fun lt => [[fst lt]; lstrip (snd lt)]) (List.filter (fun lt => is_AD (fst lt)) ls).
Proof.
  induction ls as [|[l t] ls IH]; intros H; [reflexivity|].
  cbn [forallb] in H. apply andb_true_iff in H as [Hl Hls].
  unfold line_ok in Hl. cbn [fst snd] in Hl. bool_hyps.
  specialize (IH Hls).
  change (option_lines ((l, t) :: ls))
    with (nl :: l :: str ") " ++ t ++ option_lines ls).
  rewrite findall_from_cons, option_none by reflexivity.
  cbn [List.filter fst]. destruct (is_AD l) eqn:El.
  - destruct (lstrip_split t) as (w & Et & Hw).
    destruct (lstrip_nonblank t) as (c & u & Eu & Hc); [assumption|].
    rewrite Eu in *. cbn [map fst snd]. rewrite Eu, <- IH.
    assert (Hu : forallb not_nl u = true).
    { match goal with Hn : forallb not_nl t = true |- _ =>
        rewrite Et, forallb_app in Hn; cbn [forallb] in Hn end.
      now bool_hyps. }
    replace (l :: str ") " ++ t ++ option_lines ls)
      with (l :: (str ") " ++ w ++ c :: u) ++ option_lines ls)
      by (rewrite Et; cbn [str list_ascii_of_string app];
          now rewrite <- app_assoc).
    apply findall_from_hit.
    replace (l :: (str ") " ++ w ++ c :: u) ++ option_lines ls)
      with (l :: str ")" ++ (" "%char :: w) ++ c :: u ++ option_lines ls)
      by (cbn [str list_ascii_of_string app]; now rewrite <- app_assoc).
    apply match_option; auto using at_eol_lines.
  - cbn [str list_ascii_of_string app].
    rewrite findall_from_cons, option_none
      by (cbn [option_label]; now rewrite El).
    rewrite findall_from_cons, option_none by reflexivity.
    rewrite findall_from_cons, option_none
      by (destruct t; [discriminate|reflexivity]).
    rewrite (findall_skip _ _ _ option_none); [exact IH|].
    apply nostart_option; [|apply at_eol_lines].
    cbn [orb] in *. now bool_hyps.
Qed.

Lemma nonblank_lines lt ls :
  forallb (fun lt => nonblank (snd lt)) (lt :: ls) = true ->
  nonblank (option_lines (lt :: ls)) = true.
Proof.
  cbn [forallb]. intros H. apply andb_true_iff in H as [H _].
  change (option_lines (lt :: ls)) with (option_line lt ++ option_lines ls).
  unfold nonblank in *. rewrite existsb_app. apply orb_true_iff. left.
  unfold option_line. change (nl :: fst lt :: str ") " ++ snd lt)
    with ((nl :: fst lt :: str ") ") ++ snd lt).
  rewrite existsb_app, H. apply orb_true_r.
Qed.

Lemma rstrip_lines ls :
  forallb (fun lt => nonblank (snd lt)) ls = true ->
  rstrip (option_lines ls) = option_lines (trim_last ls).
Proof.
  induction ls as [|[l t] ls IH]; intros H; [reflexivity|].
  destruct ls as [|lt' ls'].
  - cbn [forallb snd] in H. bool_hyps.
    cbn [trim_last option_lines flat_map]. rewrite !app_nil_r.
    change (option_line (l, t)) with ((nl :: l :: str ") ") ++ t).
    now rewrite rstrip_app.
  - change (option_lines ((l, t) :: lt' :: ls'))
      with (option_line (l, t) ++ option_lines (lt' :: ls')).
    cbn [forallb] in H. apply andb_true_iff in H as [_ H].
    rewrite rstrip_app by now apply nonblank_lines.
    now rewrite IH.
Qed.

Lemma entries_trim_last ls : entries (trim_last ls) = entries ls.
Proof.
  unfold entries. induction ls as [|[l t] ls IH]; [reflexivity|].
  destruct ls as [|lt' ls'].
  - cbn [trim_last List.filter fst snd]. destruct (is_AD l); [|reflexivity].
    cbn [map fst snd]. now rewrite strip_rstrip.
  - change (trim_last ((l, t) :: lt' :: ls')) with ((l, t) :: trim_last (lt' :: ls')).
    cbn [List.filter fst] in *. destruct (is_AD l); cbn [map]; now rewrite IH.
Qed.

Lemma forallb_not_nl_prefix p w : forallb not_nl (p ++ w) = true -> forallb not_nl p = true.
Proof. rewrite forallb_app. intros H. now bool_hyps. Qed.

Lemma wf_line_ok lt : wf_line lt = true -> line_ok lt = true.
Proof.
  unfold wf_line, line_ok. intros H. bool_hyps.
  repeat (apply andb_true_iff; split); assumption.
Qed.

Lemma line_ok_rstrip l t : line_ok (l, t) = true -> line_ok (l, rstrip t) = true.
Proof.
  unfold line_ok. cbn [fst snd]. intros H. bool_hyps.
  destruct (rstrip_prefix t) as (w & Ew).
  repeat (apply andb_true_iff; split).
  - apply (forallb_not_nl_prefix _ w). now rewrite <- Ew.
  - now rewrite nonblank_rstrip.
  - destruct (is_AD l); [reflexivity|]. cbn [orb] in *. bool_hyps.
    apply negb_true_iff. apply (occurs_prefix _ _ w option_label_monotone).
    now rewrite <- Ew.
Qed.

Lemma line_ok_trim_last ls : forallb line_ok ls = true -> forallb line_ok (trim_last ls) = true.
Proof.
  induction ls as [|[l t] ls IH]; intros H; [reflexivity|].
  cbn [forallb] in H. apply andb_true_iff in H as [H1 H2].
  destruct ls as [|lt' ls'].
  - cbn [trim_last forallb fst snd]. now rewrite line_ok_rstrip.
  - change (trim_last ((l, t) :: lt' :: ls')) with ((l, t) :: trim_last (lt' :: ls')).
    cbn [forallb]. now rewrite H1, IH.
Qed.

Lemma upper_AD l : is_AD l = true -> upper [l] = [l].
Proof. destruct l as [[] [] [] [] [] [] [] []]; try discriminate; reflexivity. Qed.

Lemma trim_last_cons lt ls : exists lt' ls', trim_last (lt :: ls) = lt' :: ls' /\ fst lt' = fst lt.
Proof. destruct ls; cbn [trim_last]; eauto. Qed.

(** The dictionary built from the text of the [Options:] field. *)
Lemma options_of_lines ls :
  ls <> [] ->
  forallb wf_line ls = true ->
  map (fun opt => (upper (nth 0 opt []), strip (nth 1 opt [])))
      (re_findall flags0 re_option (strip (tl (option_lines ls))))
  = entries ls.
Proof.
  intros Hne Hwf.
  assert (Hok : forallb line_ok ls = true).
  { rewrite forallb_forall in *. intros lt Hin. apply wf_line_ok; auto. }
  assert (Hnb : forallb (fun lt => nonblank (snd lt)) ls = true).
  { rewrite forallb_forall in *. intros lt Hin. specialize (Hok lt Hin).
    unfold line_ok in Hok. now bool_hyps. }
  destruct ls as [|[l t] ls]; [congruence|].
  assert (Hl : isspace l = false).
  { cbn [forallb] in Hwf. apply andb_true_iff in Hwf as [Hwf _].
    unfold wf_line in Hwf. cbn [fst] in Hwf. now bool_hyps. }
  assert (E : strip (tl (option_lines ((l, t) :: ls)))
              = tl (option_lines (trim_last ((l, t) :: ls)))).
  { rewrite <- rstrip_lines by assumption.
    change (option_lines ((l, t) :: ls))
      with (nl :: l :: str ") " ++ t ++ option_lines ls).
    cbn [tl]. unfold strip. rewrite lstrip_head by assumption.
    change (nl :: l :: str ") " ++ t ++ option_lines ls)
      with ([nl] ++ l :: str ") " ++ t ++ option_lines ls).
    rewrite rstrip_app; [reflexivity|].
    cbn [nonblank existsb]. now rewrite Hl. }
  rewrite E. unfold re_findall.
  pose proof (findall_lines _ (line_ok_trim_last _ Hok)) as F.
  destruct (trim_last_cons (l, t) ls) as ([l' t'] & ls' & Et & El).
  rewrite Et in *. cbn [fst] in El. subst l'.
  change (option_lines ((l, t') :: ls'))
    with (nl :: l :: str ") " ++ t' ++ option_lines ls') in *.
  rewrite findall_from_cons, option_none in F by reflexivity.
  cbn [tl]. rewrite F, <- entries_trim_last, Et. unfold entries.
  rewrite map_map. apply map_ext_in. intros [a x] Hin.
  apply filter_In in Hin as [_ Ha]. cbn [fst snd nth] in *.
  now rewrite upper_AD, strip_lstrip.
Qed.

(** ** One block *)

Lemma truthy_strip q : nonblank q = true -> truthy (strip q) = true.
Proof. intros H. apply strip_nonblank in H. now destruct (strip q). Qed.

(** The body of the [try] statement on a rendered block: the record is
    appended when the option lines give four distinct letters. *)
Lemma try_body_render b qs :
  wf_block b = true -> try_body (render b) qs = Ok (qs ++ accepted b).
Proof.
  intros H. pose proof H as Hb. unfold wf_block in H. bool_hyps.
  pose proof H as Hf. unfold wf_fields, wf_question in H. bool_hyps.
  unfold try_body.
  rewrite (search_correct_render b Hb).
  unfold render.
  rewrite search_difficulty_render, search_question_render by assumption.
  change (nl :: str "Correct: " ++ b_correct b :: b_trailer b)
    with (nl :: str "Correct:" ++ " "%char :: b_correct b :: b_trailer b).
  rewrite search_options_render by assumption.
  cbn [bind]. rewrite strip_lstrip.
  rewrite options_of_lines; [|destruct (b_lines b); [discriminate|congruence]|assumption].
  rewrite upper_AD by assumption.
  unfold accepted, record_of. cbn [options all forallb truthy].
  rewrite truthy_strip by assumption. cbn [andb]. rewrite andb_true_r.
  destruct (length (dict_of (entries (b_lines b))) =? 4); [reflexivity|].
  now rewrite app_nil_r.
Qed.

Lemma try_body_no_answer block qs :
  re_search flags0 re_correct block = None -> try_body block qs = Raise AttributeError.
Proof.
  intros H. unfold try_body. rewrite H.
  destruct (re_search flagsI re_difficulty block) as [[? ?]|]; [|reflexivity].
  destruct (re_search flagsS re_question block) as [[? ?]|]; [|reflexivity].
  destruct (re_search flagsS re_options block) as [[? ?]|]; reflexivity.
Qed.

Lemma try_body_append block qs :
  try_body block qs =
  match try_body block [] with
  | Ok l => Ok (qs ++ l)
  | Raise e => Raise e
  end.
Proof.
  unfold try_body.
  destruct (group1 (re_search flagsI re_difficulty block)) as [d|e]; [|reflexivity].
  destruct (group1 (re_search flagsS re_question block)) as [q|e]; [|reflexivity].
  destruct (group1 (re_search flagsS re_options block)) as [o|e]; [|reflexivity].
  destruct (group1 (re_search flags0 re_correct block)) as [a|e]; [|reflexivity].
  cbn [bind]. destruct (all _); [reflexivity|]. now rewrite app_nil_r.
Qed.

Lemma for_blocks_out blocks qs :
  for_blocks blocks qs = Ok (qs ++ flat_map block_out blocks).
Proof.
  revert qs. induction blocks as [|b bs IH]; intros qs; cbn [for_blocks flat_map].
  - now rewrite app_nil_r.
  - rewrite try_body_append. unfold block_out at 1.
    destruct (try_body b []) as [l|e]; cbn [try_except bind]; rewrite IH.
    + now rewrite app_assoc.
    + reflexivity.
Qed.

Lemma block_out_render b : wf_block b = true -> block_out (render b) = accepted b.
Proof. intros H. unfold block_out. now rewrite try_body_render. Qed.

Lemma block_out_no_correct b :
  wf_fields b = true ->
  has (str "Correct:") (b_trailer b) = false ->
  block_out (render_no_correct b) = [].
Proof.
  intros H Ht. unfold block_out.
  now rewrite try_body_no_answer by now apply search_correct_none.
Qed.

(** ** [split] on the delimiter *)

Lemma split_from_pass sep u s : split_from sep (u ++ s) (length u) = split_from sep s 0.
Proof. induction u as [|c u IH]; simpl; [destruct s|]; auto. Qed.

Lemma split_from_delimiter a sep s :
  split_from (a :: sep) ((a :: sep) ++ s) 0 = [] :: split_from (a :: sep) s 0.
Proof.
  cbn [app split_from].
  change (starts_with (a :: sep) (a :: sep ++ s)) with (starts_with (a :: sep) ((a :: sep) ++ s)).
  rewrite <- lit_prefix_starts_with, lit_prefix_app.
  replace (length (a :: sep) - 1) with (length sep) by (cbn [length]; lia).
  now rewrite split_from_pass.
Qed.

Lemma split_from_text sep u s p ps :
  nostart (starts_with sep) u s ->
  split_from sep s 0 = p :: ps ->
  split_from sep (u ++ s) 0 = (u ++ p) :: ps.
Proof.
  intros Hn Hs. induction u as [|c u IH]; [assumption|].
  cbn [nostart] in Hn. destruct Hn as [H1 H2].
  change ((c :: u) ++ s) with (c :: u ++ s) in *. cbn [split_from].
  rewrite H1, (IH H2). reflexivity.
Qed.

Lemma nostart_delimiter t s :
  has delimiter t = false -> nostart (starts_with delimiter) t (delimiter ++ s).
Proof.
  intros H. apply nostart_ext with (P := lit_prefix flags0 delimiter).
  - intros x. apply lit_prefix_starts_with.
  - apply (nostart_free flags0 delimiter t "["%char); [exact H|reflexivity|discriminate].
Qed.

Lemma split_assemble pre blocks :
  has delimiter pre = false ->
  forallb (fun b => negb (has delimiter b)) blocks = true ->
  split delimiter (assemble pre blocks) = pre :: blocks.
Proof.
  unfold split, assemble. revert pre.
  induction blocks as [|b bs IH]; intros pre Hp Hb; cbn [flat_map].
  - rewrite (split_from_text _ pre [] [] []); [now rewrite app_nil_r| |reflexivity].
    apply nostart_ext with (P := lit_prefix flags0 delimiter).
    + intros x. apply lit_prefix_starts_with.
    + now apply nostart_nil.
  - cbn [forallb] in Hb. bool_hyps. rewrite <- app_assoc.
    rewrite (split_from_text _ pre _ [] (b :: bs)).
    + now rewrite app_nil_r.
    + now apply nostart_delimiter.
    + rewrite (split_from_delimiter "["%char (str "Question_") (b ++ _)).
      f_equal. now apply IH.
Qed.

Lemma parse_assemble pre blocks :
  has delimiter pre = false ->
  forallb (fun b => negb (has delimiter b)) blocks = true ->
  parse_questions (assemble pre blocks) = Ok (firstn 7 (flat_map block_out blocks)).
Proof.
  intros Hp Hb. unfold parse_questions.
  rewrite split_assemble by assumption. cbn [tl].
  now rewrite for_blocks_out.
Qed.

(** ** A rendered block holds no delimiter *)

Lemma occurs_skip P u v : nostart P u v -> occurs P (u ++ v) = occurs P v.
Proof.
  induction u as [|c u IH]; [reflexivity|]. cbn [nostart]. intros [H1 H2].
  change ((c :: u) ++ v) with (c :: u ++ v) in *. cbn [occurs]. now rewrite H1, IH.
Qed.

Lemma occurs_skip_line fl l t s :
  occurs (lit_prefix fl l) t = false ->
  nl_free fl l = true ->
  occurs (lit_prefix fl l) (t ++ nl :: s) = occurs (lit_prefix fl l) s.
Proof.
  intros Ho Hl. rewrite occurs_skip by now apply nostart_line.
  cbn [occurs]. now rewrite nl_free_head.
Qed.

Lemma occurs_skip_fixed fl l f s :
  fixed_ok fl l f = true -> occurs (lit_prefix fl l) (f ++ s) = occurs (lit_prefix fl l) s.
Proof. intros H. apply occurs_skip. now apply nostart_fixed. Qed.

Lemma render_head_delimiter b rest :
  wf_fields b = true ->
  has delimiter (render_head b (nl :: rest)) = has delimiter rest.
Proof.
  intros H. unfold wf_fields, wf_header, wf_question in H. bool_hyps.
  unfold render_head, has.
  rewrite occurs_skip_line; [|assumption|reflexivity].
  rewrite (occurs_skip_fixed _ _ (str "Difficulty: ")) by reflexivity.
  rewrite occurs_skip_line;
    [|apply difficulty_lacks; [assumption|simpl; lia]|reflexivity].
  rewrite (occurs_skip_fixed _ _ (str "Question: ")) by reflexivity.
  rewrite occurs_skip_line; [|assumption|reflexivity].
  rewrite (occurs_skip_fixed _ _ (str "Options:")) by reflexivity.
  rewrite occurs_skip.
  - cbn [occurs]. now rewrite nl_free_head.
  - apply lines_nostart; [apply off_lines_delimiter|reflexivity|discriminate|].
    now apply wf_lines_lack_delimiter.
Qed.

Lemma AD_not_bracket a s : is_AD a = true -> lit_prefix flags0 delimiter (a :: s) = false.
Proof. destruct a as [[] [] [] [] [] [] [] []]; try discriminate; reflexivity. Qed.

Lemma render_delimiter b : wf_block b = true -> has delimiter (render b) = false.
Proof.
  intros H. unfold wf_block in H. bool_hyps.
  unfold render. rewrite render_head_delimiter by assumption.
  unfold has. rewrite (occurs_skip_fixed _ _ (str "Correct: ")) by reflexivity.
  cbn [occurs]. rewrite AD_not_bracket by assumption.
  unfold wf_fields in *. now bool_hyps.
Qed.

Lemma render_no_correct_delimiter b :
  wf_fields b = true -> has delimiter (render_no_correct b) = false.
Proof.
  intros H. unfold render_no_correct. rewrite render_head_delimiter by assumption.
  unfold wf_fields in *. now bool_hyps.
Qed.

(** ** Dictionaries *)

Lemma text_eqb_eq a b : text_eqb a b = true <-> a = b.
Proof.
  revert b; induction a as [|x a IH]; intros [|y b]; simpl; split; try easy.
  - intros H. apply andb_true_iff in H as [H1 H2].
    apply Ascii.eqb_eq in H1. apply IH in H2. now subst.
  - intros [= -> ->]. rewrite Ascii.eqb_refl. now apply IH.
Qed.

Lemma text_eqb_neq a b : text_eqb a b = false <-> a <> b.
Proof.
  split.
  - intros H E. apply text_eqb_eq in E. congruence.
  - intros H. destruct (text_eqb a b) eqn:E; [|reflexivity]. now apply text_eqb_eq in E.
Qed.

Lemma In_keys_dict_set d k v x : In x (keys (dict_set d k v)) <-> x = k \/ In x (keys d).
Proof.
  induction d as [|[k' v'] d IH]; simpl.
  - intuition.
  - destruct (text_eqb k' k) eqn:E; simpl.
    + apply text_eqb_eq in E. subst. intuition.
    + rewrite IH. intuition.
Qed.

Lemma NoDup_dict_set d k v : List.NoDup (keys d) -> List.NoDup (keys (dict_set d k v)).
Proof.
  induction d as [|[k' v'] d IH]; simpl; intros H.
  - repeat constructor. intros [].
  - inversion H as [|? ? Hn Hd]; subst.
    destruct (text_eqb k' k) eqn:E; simpl; [now constructor|].
    constructor; [|auto]. rewrite In_keys_dict_set. intros [-> | Hin]; [|auto].
    apply text_eqb_neq in E. congruence.
Qed.

Lemma dict_fold kvs d :
  List.NoDup (keys d) ->
  List.NoDup (keys (fold_left (fun d kv => dict_set d (fst kv) (snd kv)) kvs d))
  /\ forall x, In x (keys (fold_left (fun d kv => dict_set d (fst kv) (snd kv)) kvs d))
               <-> In x (keys d) \/ In x (map fst kvs).
Proof.
  revert d; induction kvs as [|[k v] kvs IH]; intros d Hd; simpl.
  - split; [assumption|]. intuition.
  - destruct (IH (dict_set d k v) (NoDup_dict_set _ _ _ Hd)) as [H1 H2].
    split; [assumption|]. intros x. rewrite H2, In_keys_dict_set. intuition.
Qed.

Lemma NoDup_dict_of kvs : List.NoDup (keys (dict_of kvs)).
Proof. apply dict_fold. constructor. Qed.

Lemma In_keys_dict_of kvs x : In x (keys (dict_of kvs)) <-> In x (map fst kvs).
Proof.
  unfold dict_of. destruct (dict_fold kvs [] (List.NoDup_nil _)) as [_ H].
  rewrite H. simpl. intuition.
Qed.

Lemma length_keys (d : dict) : length (keys d) = length d.
Proof. apply length_map. Qed.

Lemma is_AD_letters c : is_AD c = true <-> In [c] letters.
Proof.
  split.
  - destruct c as [[] [] [] [] [] [] [] []]; try discriminate; intros _; simpl; auto.
  - simpl. intros [H | [H | [H | [H | []]]]]; injection H as <-; reflexivity.
Qed.

(** Four distinct keys among the four letters are all four letters. *)
Lemma four_keys (ks : list text) :
  List.NoDup ks -> incl ks letters -> length ks = 4 -> incl letters ks.
Proof.
  intros Hn Hi Hl. apply (List.NoDup_length_incl Hn); [|assumption].
  rewrite Hl. simpl. lia.
Qed.

Lemma all_letters_four (ks : list text) :
  List.NoDup ks -> incl ks letters -> incl letters ks -> length ks = 4.
Proof.
  intros Hn Hi Hj. apply Nat.le_antisymm.
  - apply (List.NoDup_incl_length Hn Hi).
  - assert (Hl : List.NoDup letters).
    { unfold letters. repeat constructor; simpl; intuition discriminate. }
    apply (List.NoDup_incl_length Hl Hj).
Qed.

(** ** What a match captures *)

Lemma re_search_some fl r s m :
  re_search fl r s = Some m -> exists x, match_here fl r x = Some m.
Proof.
  induction s as [|c s IH]; simpl.
  - destruct (match_here fl r []) eqn:E; [|discriminate]. intros [= <-]. eauto.
  - destruct (match_here fl r (c :: s)) eqn:E; [intros [= <-]; eauto|auto].
Qed.

Lemma findall_in fl r s k g :
  In g (findall_from fl r s k) -> exists x rest, match_here fl r x = Some (g, rest).
Proof.
  revert k; induction s as [|c s IH]; intros k; simpl.
  - destruct k; [|intros []].
    destruct (match_here fl r []) as [[g' rest]|] eqn:E; [|intros []].
    intros [<- | []]. eauto.
  - destruct k as [|k]; [|apply IH].
    destruct (match_here fl r (c :: s)) as [[g' rest]|] eqn:E; [|apply IH].
    intros [<- | H]; [eauto|]. now apply IH in H.
Qed.

Lemma m_star_some fl a (k : cont) s g r :
  m_star fl a k s g = Some r -> exists s', k s' g = Some r.
Proof.
  induction s as [|c s IH]; simpl; [eauto|].
  destruct (cset_in fl a c); [|eauto].
  destruct (m_star fl a k s g) eqn:E; [|eauto].
  intros [= <-]. auto.
Qed.

Lemma range_AD fl c : IGNORECASE fl = false -> cset_in fl (Range "A" "D") c = is_AD c.
Proof. intros E. cbn [cset_in]. rewrite E. cbn [andb]. apply orb_false_r. Qed.

Lemma match_correct_inv x g rest :
  match_here flags0 re_correct x = Some (g, rest) ->
  exists c, g = [[c]] /\ is_AD c = true.
Proof.
  unfold match_here, re_correct, cat. cbn [fold_right rmatch]. intros H.
  apply m_lit_some in H as (p & s & _ & _ & _ & H).
  apply m_star_some in H as (s' & H).
  unfold m_one in H. destruct s' as [|c s']; [discriminate|].
  rewrite range_AD in H by reflexivity. destruct (is_AD c) eqn:Ec; [|discriminate].
  cbn [m_lit] in H. unfold accept in H. rewrite firstn_one in H.
  injection H as <- _. now exists c.
Qed.

Lemma match_option_inv x g rest :
  match_here flags0 re_option x = Some (g, rest) ->
  exists c t, g = [[c]; t] /\ is_AD c = true.
Proof.
  unfold match_here, re_option, cat. cbn [fold_right rmatch]. intros H.
  unfold m_one in H. destruct x as [|c x]; [discriminate|].
  rewrite range_AD in H by reflexivity. destruct (is_AD c) eqn:Ec; [|discriminate].
  rewrite firstn_one in H.
  apply m_lit_some in H as (p & s & _ & _ & _ & H).
  apply m_star_some in H as (s' & H).
  unfold m_plus in H. destruct s' as [|c' s']; [discriminate|].
  destruct (cset_in flags0 Dot c'); [|discriminate].
  apply m_star_some in H as (s'' & H).
  cbn [m_lit] in H. unfold accept in H. injection H as <- _. eauto.
Qed.

Lemma match_difficulty_inv x g rest :
  match_here flagsI re_difficulty x = Some (g, rest) ->
  exists d, g = [d] /\ is_difficulty d = true.
Proof.
  unfold match_here, re_difficulty, cat. cbn [fold_right rmatch]. intros H.
  apply m_lit_some in H as (p & s & _ & _ & _ & H).
  apply m_star_some in H as (s' & H).
  unfold is_difficulty, nocase_eq.
  destruct (m_lit flagsI (str "medium") _ s' []) eqn:E.
  - injection H as ->.
    apply m_lit_some in E as (d & s'' & -> & Hl & Hp & E).
    cbn [m_lit] in E. unfold accept in E. rewrite firstn_consumed in E.
    injection E as <- _. exists d. split; [reflexivity|].
    rewrite Hp, Hl, Nat.eqb_refl. reflexivity.
  - apply m_lit_some in H as (d & s'' & -> & Hl & Hp & H).
    cbn [m_lit] in H. unfold accept in H. rewrite firstn_consumed in H.
    injection H as <- _. exists d. split; [reflexivity|].
    rewrite Hp, Hl, Nat.eqb_refl. apply orb_true_r.
Qed.

Lemma upper_lower c : upper_chr (lower_chr c) = upper_chr c.
Proof. destruct c as [[] [] [] [] [] [] [] []]; reflexivity. Qed.

Lemma nocase_lower l p :
  lit_prefix flagsI l p = true -> length p = length l ->
  map lower_chr p = map lower_chr l.
Proof.
  revert p; induction l as [|a l IH]; intros [|c p] H Hl; simpl in *; try easy.
  apply andb_true_iff in H as [H1 H2]. unfold chr_eq in H1. cbn [IGNORECASE flagsI] in H1.
  apply Ascii.eqb_eq in H1. f_equal; [now symmetry|]. apply IH; auto.
Qed.

Lemma capitalize_nocase l p :
  lit_prefix flagsI l p = true -> length p = length l ->
  capitalize p = capitalize l.
Proof.
  intros H Hl. pose proof (nocase_lower _ _ H Hl) as E.
  destruct p as [|c p], l as [|a l]; try discriminate; [reflexivity|].
  simpl in *. injection E as E1 E2.
  now rewrite <- (upper_lower c), E1, upper_lower, E2.
Qed.

Lemma capitalize_difficulty d :
  is_difficulty d = true -> capitalize d = str "Medium" \/ capitalize d = str "Hard".
Proof.
  unfold is_difficulty, nocase_eq. intros H.
  apply orb_true_iff in H as [H | H]; apply andb_true_iff in H as [H1 H2];
    apply Nat.eqb_eq in H2; rewrite (capitalize_nocase _ _ H1 H2); auto.
Qed.

(** ** The output of [parse_questions] *)

Lemma parse_questions_out t :
  parse_questions t = Ok (firstn 7 (flat_map block_out (tl (split delimiter t)))).
Proof. unfold parse_questions. now rewrite for_blocks_out. Qed.

Lemma In_firstn {A : Type} n (l : list A) x : In x (firstn n l) -> In x l.
Proof.
  revert l; induction n as [|n IH]; intros [|a l]; simpl; try easy.
  intros [H | H]; auto.
Qed.

Lemma group1_some m t : group1 m = Ok t -> exists g rest, m = Some (g, rest) /\ t = nth 0 g [].
Proof. destruct m as [[g rest]|]; simpl; [|discriminate]. intros [= <-]. eauto. Qed.

Lemma try_body_inv block qs qs' :
  try_body block qs = Ok qs' ->
  qs' = qs \/ exists q, qs' = qs ++ [q] /\ record_ok q.
Proof.
  unfold try_body.
  destruct (group1 (re_search flagsI re_difficulty block)) as [d|e] eqn:Ed; [|discriminate].
  destruct (group1 (re_search flagsS re_question block)) as [q|e] eqn:Eq; [|discriminate].
  destruct (group1 (re_search flagsS re_options block)) as [o|e] eqn:Eo; [|discriminate].
  destruct (group1 (re_search flags0 re_correct block)) as [a|e] eqn:Ea; [|discriminate].
  cbn [bind]. destruct (all _) eqn:Ev; intros [= <-]; [right|now left].
  eexists. split; [reflexivity|].
  unfold all in Ev. cbn [forallb] in Ev. bool_hyps.
  apply group1_some in Ed as (gd & rd & Ed & ->).
  apply re_search_some in Ed as (xd & Ed). apply match_difficulty_inv in Ed as (d & -> & Hd).
  apply group1_some in Ea as (ga & ra & Ea & ->).
  apply re_search_some in Ea as (xa & Ea). apply match_correct_inv in Ea as (c & -> & Hc).
  unfold record_ok.
  cbn [difficulty question_text options answer nth].
  assert (Hk : incl (keys (dict_of (map (fun opt => (upper (nth 0 opt []), strip (nth 1 opt [])))
                                       (re_findall flags0 re_option (strip o))))) letters).
  { intros k Hin. apply (proj1 (In_keys_dict_of _ _)) in Hin. rewrite map_map in Hin.
    apply in_map_iff in Hin as (g & <- & Hin). cbn [fst].
    apply findall_in in Hin as (x & rest & Hin).
    apply match_option_inv in Hin as (c' & t & -> & Hc').
    cbn [nth]. rewrite upper_AD by assumption. now apply is_AD_letters. }
  repeat split.
  - now apply capitalize_difficulty.
  - match goal with Hq : truthy (strip q) = true |- _ => now destruct (strip q) end.
  - apply NoDup_dict_of.
  - now apply Nat.eqb_eq.
  - exact Hk.
  - rewrite upper_AD by assumption. now apply is_AD_letters.
Qed.

Lemma block_out_ok block q : In q (block_out block) -> record_ok q.
Proof.
  unfold block_out. destruct (try_body block []) as [l|e] eqn:E; [|intros []].
  apply try_body_inv in E as [-> | (q' & -> & Hq)]; [intros []|].
  intros [<- | []]. exact Hq.
Qed.

Lemma parse_questions_ok t qs q : parse_questions t = Ok qs -> In q qs -> record_ok q.
Proof.
  rewrite parse_questions_out. intros [= <-] Hin. apply In_firstn in Hin.
  apply in_flat_map in Hin as (block & _ & Hin). now apply block_out_ok in Hin.
Qed.

(** ** Blocks with the four letters *)

Lemma abcd_options ls :
  map fst (List.filter (fun lt => is_AD (fst lt)) ls) = str "ABCD" ->
  dict_of (entries ls)
  = map (fun lt => ([fst lt], strip (snd lt))) (List.filter (fun lt => is_AD (fst lt)) ls)
  /\ keys (dict_of (entries ls)) = letters.
Proof.
  unfold entries. destruct (List.filter _ ls) as [|[a ta] [|[b tb] [|[c tc] [|[d td] [|? ?]]]]];
    try discriminate.
  cbn [map fst snd str list_ascii_of_string]. intros [= -> -> -> ->]. split; reflexivity.
Qed.

Lemma filter_all {A : Type} (f : A -> bool) l : forallb f l = true -> List.filter f l = l.
Proof.
  induction l as [|a l IH]; simpl; [reflexivity|]. intros H.
  apply andb_true_iff in H as [H1 H2]. now rewrite H1, IH.
Qed.

Lemma well_formed_lines b :
  well_formed b = true ->
  List.filter (fun lt => is_AD (fst lt)) (b_lines b) = b_lines b
  /\ map fst (b_lines b) = str "ABCD".
Proof.
  unfold well_formed. intros H. bool_hyps.
  match goal with E : text_eqb _ _ = true |- _ => apply text_eqb_eq in E; rename E into Eq end.
  split; [|assumption]. apply filter_all.
  destruct (b_lines b) as [|[a ta] [|[c tb] [|[d tc] [|[e td] [|? ?]]]]]; try discriminate.
  cbn [map fst str list_ascii_of_string] in Eq. injection Eq as -> -> -> ->. reflexivity.
Qed.

Lemma accepted_abcd b :
  map fst (List.filter (fun lt => is_AD (fst lt)) (b_lines b)) = str "ABCD" ->
  accepted b = [record_of b].
Proof.
  intros H. unfold accepted, record_of. cbn [options].
  destruct (abcd_options _ H) as [_ Hk].
  rewrite <- length_keys, Hk. reflexivity.
Qed.

Lemma accepted_well_formed b : well_formed b = true -> accepted b = [record_of b].
Proof.
  intros H. destruct (well_formed_lines b H) as [E1 E2].
  apply accepted_abcd. now rewrite E1.
Qed.

Lemma length_dict_of kvs : length (dict_of kvs) <= length kvs.
Proof.
  rewrite <- length_keys, <- (length_map fst kvs).
  apply List.NoDup_incl_length; [apply NoDup_dict_of|].
  intros k. apply In_keys_dict_of.
Qed.

Lemma length_entries ls : length (entries ls) <= length ls.
Proof. unfold entries. rewrite length_map. apply List.filter_length_le. Qed.

Lemma accepted_three b : length (b_lines b) = 3 -> accepted b = [].
Proof.
  intros H. unfold accepted, record_of. cbn [options].
  pose proof (length_dict_of (entries (b_lines b))) as H1.
  pose proof (length_entries (b_lines b)) as H2.
  destruct (Nat.eqb_spec (length (dict_of (entries (b_lines b)))) 4); [lia|reflexivity].
Qed.

(** ** Texts assembled from candidate blocks *)

Lemma well_formed_wf_block b : well_formed b = true -> wf_block b = true.
Proof. unfold well_formed. intros H. now bool_hyps. Qed.

Lemma candidate_delimiter c :
  wf_candidate c = true -> has delimiter (render_candidate c) = false.
Proof.
  destruct c as [b|b|b]; cbn [wf_candidate render_candidate]; intros H.
  - apply render_delimiter. now apply well_formed_wf_block.
  - bool_hyps. now apply render_no_correct_delimiter.
  - bool_hyps. now apply render_delimiter.
Qed.

Lemma candidate_out c :
  wf_candidate c = true -> block_out (render_candidate c) = map record_of (goods [c]).
Proof.
  destruct c as [b|b|b]; cbn [wf_candidate render_candidate goods flat_map app map]; intros H.
  - rewrite block_out_render by now apply well_formed_wf_block.
    now apply accepted_well_formed.
  - bool_hyps. now apply block_out_no_correct.
  - bool_hyps. rewrite block_out_render by assumption.
    apply accepted_three. now apply Nat.eqb_eq.
Qed.

Lemma candidates_out cs :
  forallb wf_candidate cs = true ->
  flat_map block_out (map render_candidate cs) = map record_of (goods cs).
Proof.
  induction cs as [|c cs IH]; [reflexivity|]. cbn [forallb]. intros H.
  apply andb_true_iff in H as [H1 H2].
  replace (goods (c :: cs)) with (goods [c] ++ goods cs)
    by (unfold goods; cbn [flat_map]; now rewrite app_nil_r).
  cbn [map flat_map]. rewrite map_app, IH, candidate_out by assumption.
  reflexivity.
Qed.

Lemma parse_candidates pre cs :
  has delimiter pre = false ->
  forallb wf_candidate cs = true ->
  parse_questions (assemble pre (map render_candidate cs))
  = Ok (firstn 7 (map record_of (goods cs))).
Proof.
  intros Hp Hc. rewrite parse_assemble, candidates_out by
    (try assumption; rewrite forallb_forall in *; intros x Hin;
     apply in_map_iff in Hin as (c & <- & Hin); apply negb_true_iff;
     apply candidate_delimiter; auto).
  reflexivity.
Qed.

Lemma goods_good bs : goods (map Good bs) = bs.
Proof.
  induction bs as [|b bs IH]; [reflexivity|].
  unfold goods in *. cbn [map flat_map app]. now f_equal.
Qed.

Lemma parse_well_formed pre bs :
  has delimiter pre = false ->
  forallb well_formed bs = true ->
  parse_questions (assemble pre (map render bs)) = Ok (map record_of (firstn 7 bs)).
Proof.
  intros Hp Hb.
  pose proof (parse_candidates pre (map Good bs) Hp) as H.
  rewrite map_map, goods_good in H. cbn [render_candidate] in H.
  rewrite firstn_map in H. apply H.
  rewrite forallb_forall in *. intros c Hin.
  apply in_map_iff in Hin as (b & <- & Hin). cbn [wf_candidate]. auto.
Qed.

Lemma length_goods cs : length (goods cs) = length (List.filter is_good cs).
Proof.
  unfold goods.
  induction cs as [|[b|b|b] cs IH]; cbn [flat_map List.filter is_good app length];
    now rewrite ?IH.
Qed.

(** ** An answer letter outside A to D *)

Lemma match_correct_bad c rest :
  is_AD c = false ->
  isspace c = false ->
  match_here flags0 re_correct (str "Correct: " ++ c :: rest) = None.
Proof.
  intros Ha Hs. unfold match_here, re_correct, cat. cbn [fold_right rmatch].
  change (str "Correct: " ++ c :: rest) with (str "Correct:" ++ " "%char :: c :: rest).
  rewrite m_lit_app. cbn [m_star]. change (cset_in flags0 Space " ") with true.
  change (cset_in flags0 Space c) with (isspace c). rewrite Hs.
  unfold m_one. rewrite !range_AD by reflexivity. now rewrite Ha.
Qed.

Lemma search_correct_bad b :
  wf_fields b = true ->
  is_AD (b_correct b) = false ->
  isspace (b_correct b) = false ->
  has (str "Correct:") (b_correct b :: b_trailer b) = false ->
  re_search flags0 re_correct (render b) = None.
Proof.
  intros H Ha Hs Ht. unfold render. rewrite search_correct_head by assumption.
  change (str "Correct: " ++ b_correct b :: b_trailer b)
    with ("C"%char :: str "orrect: " ++ b_correct b :: b_trailer b).
  rewrite re_search_cons.
  change ("C"%char :: str "orrect: " ++ b_correct b :: b_trailer b)
    with (str "Correct: " ++ b_correct b :: b_trailer b).
  rewrite match_correct_bad by assumption.
  unfold re_correct. rewrite (search_skip_fixed _ _ _ (str "orrect: ")) by reflexivity.
  apply re_search_none with (P := lit_prefix flags0 (str "Correct:")).
  - intros x. apply cat_lit_none.
  - exact Ht.
  - reflexivity.
Qed.

(** ** Scoring *)

Lemma count_from (a : gmap nat text) qs s c :
  fold_left
    (fun correct iq =>
       if text_eqb (get a (fst iq)) (answer (snd iq)) then correct + 1 else correct)
    (combine (seq s (length qs)) qs) c
  = c + length (List.filter
                  (fun i => match nth_error qs (i - s) with
                            | Some q => text_eqb (get a i) (answer q)
                            | None => false
                            end)
                  (seq s (length qs))).
Proof.
  revert s c. induction qs as [|q qs IH]; intros s c; [simpl; lia|].
  cbn [length seq combine fold_left List.filter fst snd].
  rewrite IH. rewrite Nat.sub_diag. cbn [nth_error].
  rewrite (List.filter_ext_in
             (fun i => match nth_error (q :: qs) (i - s) with
                       | Some q0 => text_eqb (get a i) (answer q0)
                       | None => false
                       end)
             (fun i => match nth_error qs (i - S s) with
                       | Some q0 => text_eqb (get a i) (answer q0)
                       | None => false
                       end)).
  - destruct (text_eqb (get a s) (answer q)); cbn [length]; lia.
  - intros i Hi. apply in_seq in Hi.
    replace (i - s) with (S (i - S s)) by lia. reflexivity.
Qed.

Lemma count_correct_num_right qs a : count_correct qs a = num_right qs a.
Proof.
  unfold count_correct, num_right, enumerate. rewrite count_from. cbn [Nat.add].
  f_equal. apply List.filter_ext. intros i. now rewrite Nat.sub_0_r.
Qed.

Lemma num_right_le qs a : num_right qs a <= length qs.
Proof.
  unfold num_right. etransitivity; [apply List.filter_length_le|].
  now rewrite length_seq.
Qed.

Lemma percent_formula (c n : nat) :
  n <> 0 ->
  (inject_Z (Z.of_nat c) / inject_Z (Z.of_nat n) * 100
   == 100 * inject_Z (Z.of_nat c) / inject_Z (Z.of_nat n))%Q.
Proof.
  intros Hn. field. intros E.
  unfold Qeq in E. simpl in E. lia.
Qed.

Lemma percent_range (c n : nat) :
  n <> 0 -> c <= n ->
  (0 <= inject_Z (Z.of_nat c) / inject_Z (Z.of_nat n) * 100
   /\ inject_Z (Z.of_nat c) / inject_Z (Z.of_nat n) * 100 <= 100)%Q.
Proof.
  intros Hn Hc.
  assert (Hpos : (0 < inject_Z (Z.of_nat n))%Q).
  { change 0%Q with (inject_Z 0). rewrite <- Zlt_Qlt. lia. }
  assert (H0 : (0 <= inject_Z (Z.of_nat c) / inject_Z (Z.of_nat n))%Q).
  { apply Qle_shift_div_l; [assumption|]. rewrite Qmult_0_l.
    change 0%Q with (inject_Z 0). rewrite <- Zle_Qle. lia. }
  assert (H1 : (inject_Z (Z.of_nat c) / inject_Z (Z.of_nat n) <= 1)%Q).
  { apply Qle_shift_div_r; [assumption|]. rewrite Qmult_1_l.
    rewrite <- Zle_Qle. lia. }
  split.
  - apply Qmult_le_0_compat; [assumption|discriminate].
  - apply Qle_trans with (1 * 100)%Q; [|unfold Qle; simpl; lia].
    apply Qmult_le_compat_r; [assumption|discriminate].
Qed.

(** ** What [strip] removes *)

Lemma rstrip_split t : exists w, t = rstrip t ++ w /\ forallb isspace w = true.
Proof.
  induction t as [|c t (w & E & Hw)]; [now exists []|]. cbn [rstrip].
  destruct (rstrip t) as [|a r] eqn:Er.
  - cbn [app] in E. subst w. destruct (isspace c) eqn:Ec.
    + exists (c :: t). cbn [app forallb]. now rewrite Ec, Hw.
    + exists t. split; [reflexivity|assumption].
  - exists w. split; [|assumption]. cbn [app]. f_equal. exact E.
Qed.

Lemma rstrip_last t d : rstrip t <> [] -> isspace (List.last (rstrip t) d) = false.
Proof.
  induction t as [|c t IH]; cbn [rstrip]; [congruence|].
  destruct (rstrip t) as [|a r] eqn:Er.
  - destruct (isspace c) eqn:Ec; [congruence|]. intros _. exact Ec.
  - intros _. change (List.last (c :: a :: r) d) with (List.last (a :: r) d).
    apply IH. discriminate.
Qed.

Lemma lstrip_first t c u : lstrip t = c :: u -> isspace c = false.
Proof.
  induction t as [|a t IH]; cbn [lstrip]; [discriminate|].
  destruct (isspace a) eqn:Ea; [exact IH|]. intros [= <- _]. exact Ea.
Qed.

Lemma strip_trimmed t : trimmed (strip t).
Proof.
  unfold strip, trimmed.
  destruct (rstrip (lstrip t)) as [|c u] eqn:E; [exact I|].
  destruct (rstrip_split (lstrip t)) as (w & Ew & _). rewrite E in Ew.
  split.
  - now apply (lstrip_first t c (u ++ w)).
  - rewrite <- E. apply rstrip_last. rewrite E. discriminate.
Qed.


Lemma lstrip_spaces l x : forallb isspace l = true -> lstrip (l ++ x) = lstrip x.
Proof.
  induction l as [|c l IH]; [reflexivity|]. cbn [forallb app lstrip].
  intros H. apply andb_true_iff in H as [Hc Hl]. rewrite Hc. now apply IH.
Qed.

Lemma rstrip_spaces r : forallb isspace r = true -> rstrip r = [].
Proof.
  induction r as [|c r IH]; [reflexivity|]. cbn [forallb rstrip].
  intros H. apply andb_true_iff in H as [Hc Hr]. now rewrite (IH Hr), Hc.
Qed.

Lemma rstrip_keeps u r d :
  u <> [] -> isspace (List.last u d) = false -> forallb isspace r = true ->
  rstrip (u ++ r) = u.
Proof.
  intros Hn Hl Hr. induction u as [|c u IH]; [congruence|].
  destruct u as [|b u].
  - cbn [app rstrip]. rewrite (rstrip_spaces r Hr). cbn [List.last] in Hl. now rewrite Hl.
  - change (List.last (c :: b :: u) d) with (List.last (b :: u) d) in Hl.
    change ((c :: b :: u) ++ r) with (c :: (b :: u) ++ r). cbn [rstrip].
    rewrite IH by (discriminate || assumption). reflexivity.
Qed.

(** [trim_of] determines its second argument: it is [strip]. *)
Lemma trim_of_strip t u : trim_of t u -> strip t = u.
Proof.
  intros (l & r & -> & Hl & Hr & Hu). unfold strip.
  rewrite (lstrip_spaces l _ Hl).
  destruct u as [|c u].
  - cbn [app]. destruct (lstrip_split r) as (w & Ew & _).
    apply rstrip_spaces. rewrite Ew in Hr. rewrite forallb_app in Hr.
    now apply andb_true_iff in Hr.
  - destruct Hu as [Hc Hlast]. cbn [app lstrip]. rewrite Hc.
    change (c :: u ++ r) with ((c :: u) ++ r).
    apply (rstrip_keeps (c :: u) r c); [discriminate|assumption|assumption].
Qed.



(** ** The stored score *)

Lemma score_near_all n correct :
  1 <= n <= 7 -> correct <= n -> score_near correct n = true.
Proof.
  intros Hn Hc.
  assert (Hn' : n = 1 \/ n = 2 \/ n = 3 \/ n = 4 \/ n = 5 \/ n = 6 \/ n = 7) by lia.
  destruct Hn' as [-> | [-> | [-> | [-> | [-> | [-> | ->]]]]]];
    do 8 (destruct correct as [|correct]; [first [vm_compute; reflexivity | lia]|]); lia.
Qed.

Lemma score_stored_binary64 qs (answers : gmap nat text) :
  qs <> [] ->
  score_stored qs answers = Ok (score_binary64 (num_right qs answers) (length qs)).
Proof.
  intros H. unfold score_stored, truediv_binary64, score_binary64.
  destruct qs as [|q qs']; [congruence|].
  cbn [length Nat.eqb bind]. now rewrite count_correct_num_right.
Qed.

Lemma score_near_inv correct n :
  score_near correct n = true ->
  exists v,
    Q_of_float (score_binary64 correct n) = Some v
    /\ (0 <= v)%Q /\ (v <= 100)%Q
    /\ (Qabs (v - percent correct n) <= rounding)%Q
    /\ ((100 * correct) mod n = 0 -> (v == percent correct n)%Q).
Proof.
  unfold score_near. destruct (Q_of_float (score_binary64 correct n)) as [v|]; [|discriminate].
  intros H. apply andb_true_iff in H as [H H4]. apply andb_true_iff in H as [H H3].
  apply andb_true_iff in H as [H1 H2].
  exists v. split; [reflexivity|].
  apply Qle_bool_iff in H1, H2, H3. repeat (split; [assumption|]).
  intros Hm. apply Nat.eqb_eq in Hm. rewrite Hm in H4. cbn [negb orb] in H4.
  now apply Qeq_bool_iff.
Qed.

(** * The claims *)




(** C2: in a text of five well-formed blocks and two malformed ones (one
    with no [Correct:] line, one with three option lines only), in any
    order, [parse_questions] returns the five records of the well-formed
    blocks, in their order, and nothing for the other two. *)
Theorem parse_skips_malformed (pre : text) (cs : list candidate) :
  has delimiter pre = false ->
  forallb wf_candidate cs = true ->
  length (List.filter is_good cs) = 5 ->
  length (List.filter is_no_correct cs) = 1 ->
  length (List.filter is_three_options cs) = 1 ->
  parse_questions (assemble pre (map render_candidate cs)) = Ok (map record_of (goods cs))
  /\ length (map record_of (goods cs)) = 5.
Proof.
  intros Hp Hc H5 _ _.
  assert (Hl : length (map record_of (goods cs)) = 5)
    by now rewrite length_map, length_goods.
  split; [|assumption].
  rewrite parse_candidates by assumption.
  now rewrite firstn_all2 by lia.
Qed.

Lemma parse_skips_malformed_witness :
  has delimiter intro = false
  /\ forallb wf_candidate mixed7 = true
  /\ length (List.filter is_good mixed7) = 5
  /\ length (List.filter is_no_correct mixed7) = 1
  /\ length (List.filter is_three_options mixed7) = 1
  /\ parse_questions (assemble intro (map render_candidate mixed7))
     = Ok (map record_of (goods mixed7)).
Proof.
  assert (H1 : has delimiter intro = false) by (vm_compute; reflexivity).
  assert (H2 : forallb wf_candidate mixed7 = true) by (vm_compute; reflexivity).
  assert (H3 : length (List.filter is_good mixed7) = 5) by reflexivity.
  assert (H4 : length (List.filter is_no_correct mixed7) = 1) by reflexivity.
  assert (H5 : length (List.filter is_three_options mixed7) = 1) by reflexivity.
  refine (conj H1 (conj H2 (conj H3 (conj H4 (conj H5 _))))).
  exact (proj1 (parse_skips_malformed intro mixed7 H1 H2 H3 H4 H5)).
Defined.

(** C3: whatever the text, [parse_questions] returns at most seven
    records; on ten well-formed blocks it returns the records of the first
    seven, in order. *)
Theorem parse_at_most_seven :
  (forall t, exists qs, parse_questions t = Ok qs /\ length qs <= 7)
  /\ (forall pre bs,
        has delimiter pre = false ->
        forallb well_formed bs = true ->
        length bs = 10 ->
        parse_questions (assemble pre (map render bs)) = Ok (map record_of (firstn 7 bs))
        /\ length (map record_of (firstn 7 bs)) = 7).
Proof.
  split.
  - intros t. rewrite parse_questions_out. eexists. split; [reflexivity|].
    apply firstn_le_length.
  - intros pre bs Hp Hb Hl. split; [now apply parse_well_formed|].
    rewrite length_map, length_firstn. lia.
Qed.

Lemma parse_at_most_seven_witness :
  has delimiter intro = false
  /\ forallb well_formed quiz10 = true
  /\ length quiz10 = 10
  /\ parse_questions (assemble intro (map render quiz10)) = Ok (map record_of (firstn 7 quiz10)).
Proof.
  assert (H1 : has delimiter intro = false) by (vm_compute; reflexivity).
  assert (H2 : forallb well_formed quiz10 = true) by (vm_compute; reflexivity).
  assert (H3 : length quiz10 = 10) by reflexivity.
  refine (conj H1 (conj H2 (conj H3 _))).
  exact (proj1 (proj2 parse_at_most_seven intro quiz10 H1 H2 H3)).
Defined.

(** C4: [parse_questions] never raises: for every text it returns a list
    of records; on a text in which the delimiter [[Question_] does not
    occur the list is empty. *)
Theorem parse_never_raises (t : text) :
  (exists qs, parse_questions t = Ok qs)
  /\ (has delimiter t = false -> parse_questions t = Ok []).
Proof.
  split.
  - rewrite parse_questions_out. eauto.
  - intros H. pose proof (parse_assemble t [] H eq_refl) as E.
    unfold assemble in E. cbn [flat_map] in E. now rewrite app_nil_r in E.
Qed.

Lemma parse_never_raises_witness :
  has delimiter intro = false /\ parse_questions intro = Ok [].
Proof.
  assert (H : has delimiter intro = false) by (vm_compute; reflexivity).
  split; [assumption|].
  exact (proj2 (parse_never_raises intro) H).
Defined.

(** C5, as stated, fails: a block with two lines labelled A) next to lines
    for B, C and D passes validation.  The dictionary keeps one entry for
    A, with the text of the second line, and the record is produced. *)
Lemma duplicate_letters_accepted :
  map (fun opt => nth 0 opt []) (re_findall flags0 re_option (str "A) first
A) second
B) x
C) y
D) z"))
  = [str "A"; str "A"; str "B"; str "C"; str "D"]
  /\ duplicate_text = assemble [] [render duplicate_block]
  /\ parse_questions duplicate_text = Ok [duplicate_record].
Proof. repeat split; vm_compute; reflexivity. Qed.

(** C5, amended: a block yields a record only if the letters found as
    option labels, repetitions apart, are exactly the four letters A, B, C,
    D; repeated letters do not fail validation: a block in the format of the
    prompt in which each of A, B, C, D labels at least one option line
    yields its record, whatever lines repeat a letter. *)
Theorem options_distinct_letters :
  (forall block qs q,
      try_body block qs = Ok (qs ++ [q]) ->
      List.NoDup (keys (options q))
      /\ length (keys (options q)) = 4
      /\ (forall k, In k (keys (options q)) <-> In k letters))
  /\ (forall b qs,
        wf_block b = true ->
        incl (str "ABCD") (map fst (b_lines b)) ->
        try_body (render b) qs = Ok (qs ++ [record_of b])).
Proof.
  split.
  - intros block qs q H. apply try_body_inv in H as [H | (q' & H & Hq)].
    + apply (f_equal (@length _)) in H. rewrite length_app in H. simpl in H. lia.
    + apply app_inv_head in H. injection H as <-.
      destruct Hq as (_ & _ & Hn & Hl & Hi & _).
      rewrite length_keys. repeat split; auto.
      apply four_keys; auto. now rewrite length_keys.
  - intros b qs Hb Hi. rewrite try_body_render by assumption. f_equal. f_equal.
    unfold accepted, record_of. cbn [options].
    rewrite <- length_keys.
    rewrite (all_letters_four (keys (dict_of (entries (b_lines b))))); [reflexivity| | |].
    + apply NoDup_dict_of.
    + intros k Hk. apply (proj1 (In_keys_dict_of _ _)) in Hk.
      unfold entries in Hk. rewrite map_map in Hk. cbn [fst] in Hk.
      apply in_map_iff in Hk as ([l t] & <- & Hin).
      apply filter_In in Hin as [_ Hl]. now apply is_AD_letters.
    + intros k Hk. apply In_keys_dict_of.
      assert (Hc : exists c, k = [c] /\ In c (str "ABCD")).
      { destruct Hk as [<- | [<- | [<- | [<- | []]]]];
          eexists; (split; [reflexivity|]); simpl; auto 6. }
      destruct Hc as (c & -> & Hc). pose proof (Hi c Hc) as Hin.
      apply in_map_iff in Hin as ([l t] & El & Hin). cbn [fst] in El. subst l.
      unfold entries. rewrite map_map. cbn [fst].
      apply in_map_iff. exists (c, t). split; [reflexivity|].
      apply filter_In. split; [assumption|]. cbn [fst].
      apply is_AD_letters. simpl in Hc. simpl. intuition (subst; auto).
Qed.

Lemma options_distinct_letters_witness :
  wf_block duplicate_block = true
  /\ incl (str "ABCD") (map fst (b_lines duplicate_block))
  /\ try_body (render duplicate_block) [] = Ok [record_of duplicate_block]
  /\ length (keys (options (record_of duplicate_block))) = 4.
Proof.
  assert (H1 : wf_block duplicate_block = true) by (vm_compute; reflexivity).
  assert (H2 : incl (str "ABCD") (map fst (b_lines duplicate_block)))
    by (intros c [<- | [<- | [<- | [<- | []]]]]; simpl; auto 8).
  pose proof (proj2 options_distinct_letters duplicate_block [] H1 H2) as H3.
  refine (conj H1 (conj H2 (conj H3 _))).
  exact (proj1 (proj2 (proj1 options_distinct_letters _ _ _ H3))).
Defined.




(** C9: in every record returned by [parse_questions] the answer is a key
    of the options: the keys are exactly the four letters A, B, C, D and
    the answer is one of them.  A block in the format of the prompt whose
    [Correct:] label is followed by a character other than A to D (such as
    E), with no further [Correct:] after it, adds no record. *)
Theorem answer_among_options :
  (forall t qs q,
      parse_questions t = Ok qs -> In q qs ->
      In (answer q) (keys (options q))
      /\ length (options q) = 4
      /\ (forall k, In k (keys (options q)) <-> In k letters))
  /\ (forall b,
        wf_fields b = true ->
        is_AD (b_correct b) = false ->
        isspace (b_correct b) = false ->
        has (str "Correct:") (b_correct b :: b_trailer b) = false ->
        block_out (render b) = [])
  /\ parse_questions answer_E_text = Ok [].
Proof.
  split; [|split; [|vm_compute; reflexivity]].
  - intros t qs q H Hin.
    destruct (parse_questions_ok t qs q H Hin) as (_ & _ & Hn & Hl & Hi & Ha).
    assert (Hj : incl letters (keys (options q)))
      by (apply four_keys; auto; now rewrite length_keys).
    repeat split; auto.
  - intros b H Ha Hs Ht. unfold block_out.
    now rewrite try_body_no_answer by now apply search_correct_bad.
Qed.

Lemma answer_among_options_witness :
  parse_questions duplicate_text = Ok [duplicate_record]
  /\ In duplicate_record [duplicate_record]
  /\ In (answer duplicate_record) (keys (options duplicate_record))
  /\ wf_fields answer_E_block = true
  /\ block_out (render answer_E_block) = [].
Proof.
  assert (H1 : parse_questions duplicate_text = Ok [duplicate_record])
    by (vm_compute; reflexivity).
  assert (H2 : In duplicate_record [duplicate_record]) by (left; reflexivity).
  assert (H3 : wf_fields answer_E_block = true) by (vm_compute; reflexivity).
  refine (conj H1 (conj H2 (conj _ (conj H3 _)))).
  - exact (proj1 (proj1 answer_among_options _ _ _ H1 H2)).
  - exact (proj1 (proj2 answer_among_options) answer_E_block H3 eq_refl eq_refl eq_refl).
Defined.




(** C7, as stated, fails: the score is a binary64 number, computed as
    [(correct / n) * 100], and is not always 100 * correct / n.  With three
    questions and one right answer the stored score is
    33.33333333333332859638..., which is neither 100/3 nor the binary64
    value of [100 * 1 / 3], 33.333333333333335701809...; it is within
    [rounding] of 100/3. *)
Lemma score_one_of_three :
  length (firstn 3 four_questions) = 3
  /\ num_right (firstn 3 four_questions) (<[0 := str "A"]> ∅) = 1
  /\ score_stored (firstn 3 four_questions) (<[0 := str "A"]> ∅)
     = Ok 0x1.0aaaaaaaaaaaap+5%float
  /\ Q_of_float 0x1.0aaaaaaaaaaaap+5%float
     = Some (4691249611844266 # 140737488355328)
  /\ Qeq_bool (4691249611844266 # 140737488355328) (percent 1 3) = false
  /\ PrimFloat.eqb 0x1.0aaaaaaaaaaaap+5%float (100 * 1 / 3)%float = false
  /\ Qle_bool (Qabs ((4691249611844266 # 140737488355328) - percent 1 3)) rounding = true.
Proof. repeat split; vm_compute; reflexivity. Qed.

(** C7, amended: on n >= 1 questions the [Submit Answers] action counts
    the indices whose stored answer is the correct letter of the question
    and stores the binary64 value of [(count / n) * 100].  For the numbers
    of questions that the parser can return, 1 to 7, this value lies between
    0 and 100, is within 1e-14 of 100 * count / n, and is 100 * count / n
    when that is a whole number.  With four questions whose answers are A,
    B, C, D and the stored answers A, B, X, D, where X is anything but C (an
    unanswered question included), the stored score is 75.0. *)
Theorem score_formula :
  (forall qs answers,
      qs <> [] ->
      score_stored qs answers = Ok (score_binary64 (num_right qs answers) (length qs))
      /\ num_right qs answers <= length qs)
  /\ (forall n count,
        1 <= n <= 7 -> count <= n ->
        exists v,
          Q_of_float (score_binary64 count n) = Some v
          /\ (0 <= v)%Q /\ (v <= 100)%Q
          /\ (Qabs (v - percent count n) <= rounding)%Q
          /\ ((100 * count) mod n = 0 -> (v == percent count n)%Q))
  /\ (forall q0 q1 q2 q3 answers,
        answer q0 = str "A" -> answer q1 = str "B" ->
        answer q2 = str "C" -> answer q3 = str "D" ->
        get answers 0 = str "A" -> get answers 1 = str "B" ->
        get answers 2 <> str "C" -> get answers 3 = str "D" ->
        score_stored [q0; q1; q2; q3] answers = Ok 75%float).
Proof.
  split; [|split].
  - intros qs answers Hn. split; [now apply score_stored_binary64|apply num_right_le].
  - intros n count Hn Hc. apply score_near_inv. now apply score_near_all.
  - intros q0 q1 q2 q3 answers A0 A1 A2 A3 G0 G1 G2 G3.
    rewrite score_stored_binary64 by discriminate. f_equal.
    assert (E : num_right [q0; q1; q2; q3] answers = 3).
    { unfold num_right. cbn [length seq List.filter nth_error].
      rewrite A0, A1, A2, A3, G0, G1, G3.
      apply text_eqb_neq in G2. rewrite G2. reflexivity. }
    rewrite E. vm_compute. reflexivity.
Qed.

Lemma score_formula_witness :
  four_questions <> []
  /\ get (answers session_ABXD) 2 <> str "C"
  /\ score_stored four_questions (answers session_ABXD)
     = Ok (score_binary64 (num_right four_questions (answers session_ABXD)) 4)
  /\ score_stored four_questions (answers session_ABXD) = Ok 75%float
  /\ exists v, Q_of_float (score_binary64 2 7) = Some v /\ (v <= 100)%Q.
Proof.
  assert (H : four_questions <> []) by discriminate.
  assert (G2 : get (answers session_ABXD) 2 <> str "C") by (vm_compute; discriminate).
  refine (conj H (conj G2 (conj _ (conj _ _)))).
  - exact (proj1 (proj1 score_formula four_questions (answers session_ABXD) H)).
  - apply (proj2 (proj2 score_formula)); try reflexivity. exact G2.
  - destruct (proj1 (proj2 score_formula) 7 2 ltac:(lia) ltac:(lia))
      as (v & H1 & _ & H2 & _).
    exists v. exact (conj H1 H2).
Defined.

(** C8: the scoring action is not run on a state without questions: when
    [questions] is empty, or [None], [Submit Answers] leaves the state as
    it is, whatever the button says, and no division takes place; for every
    state the action returns a state and raises nothing.  The guard is what
    prevents the error: the division itself raises on a zero divisor. *)
Theorem submit_no_questions :
  (forall st button,
      questions st = Some [] \/ questions st = None ->
      submit_answers st button = Ok st)
  /\ (forall st button, exists st', submit_answers st button = Ok st')
  /\ (forall correct, truediv correct 0 = Raise ZeroDivisionError).
Proof.
  split; [|split].
  - intros st button [H | H]; unfold submit_answers; now rewrite H.
  - intros st button. unfold submit_answers.
    destruct (questions st) as [[|q qs]|]; [eauto| |eauto].
    destruct button; [|eauto]. unfold truediv. cbn [length Nat.eqb bind]. eauto.
  - reflexivity.
Qed.

Lemma submit_no_questions_witness :
  questions session_empty = Some []
  /\ submit_answers session_empty true = Ok session_empty.
Proof.
  assert (H : questions session_empty = Some []) by reflexivity.
  refine (conj H _).
  exact (proj1 submit_no_questions session_empty true (or_introl H)).
Defined.

(** * Further properties *)

(** ** Splitting and joining *)

Lemma split_from_nonempty sep s skip : split_from sep s skip <> [].
Proof.
  revert skip; induction s as [|c s IH]; intros skip; simpl; [discriminate|].
  destruct skip; [|apply IH].
  destruct (starts_with sep (c :: s)); [discriminate|].
  destruct (split_from sep s 0); discriminate.
Qed.

Lemma starts_with_skipn l s : starts_with l s = true -> s = l ++ skipn (length l) s.
Proof.
  revert s; induction l as [|a l IH]; intros [|c s] H; simpl in *; try easy.
  apply andb_true_iff in H as [H1 H2]. apply Ascii.eqb_eq in H1. subst.
  f_equal. now apply IH.
Qed.

Lemma join_cons sep x p ps : join sep (x :: p :: ps) = x ++ sep ++ join sep (p :: ps).
Proof. reflexivity. Qed.

Lemma join_push sep (c : ascii) p ps : join sep ((c :: p) :: ps) = c :: join sep (p :: ps).
Proof. destruct ps; reflexivity. Qed.

Lemma split_from_join sep s skip :
  sep <> [] -> join sep (split_from sep s skip) = skipn skip s.
Proof.
  intros Hsep. revert skip; induction s as [|c s IH]; intros skip.
  - now destruct skip.
  - cbn [split_from]. destruct skip as [|k]; [|now rewrite IH].
    destruct (starts_with sep (c :: s)) eqn:E.
    + pose proof (split_from_nonempty sep s (length sep - 1)) as Hne.
      pose proof (IH (length sep - 1)) as IH'.
      destruct (split_from sep s (length sep - 1)) as [|p ps]; [congruence|].
      rewrite join_cons, IH'. cbn [app skipn].
      symmetry. etransitivity; [apply (starts_with_skipn _ _ E)|].
      destruct sep as [|a sep]; [congruence|].
      cbn [length skipn].
      now replace (S (length sep) - 1) with (length sep) by lia.
    + pose proof (split_from_nonempty sep s 0) as Hne.
      pose proof (IH 0) as IH'.
      destruct (split_from sep s 0) as [|p ps]; [congruence|].
      cbv beta iota. rewrite join_push. cbn [skipn] in *. f_equal. exact IH'.
Qed.

Lemma split_from_head sep s p ps :
  split_from sep s 0 = p :: ps -> exists r, s = p ++ r.
Proof.
  revert p ps; induction s as [|c s IH]; intros p ps; cbn [split_from].
  - intros [= <- <-]. now exists [].
  - destruct (starts_with sep (c :: s)); [intros [= <- <-]; now exists (c :: s)|].
    destruct (split_from sep s 0) as [|p' ps'] eqn:E; intros [= <- <-].
    + now exists s.
    + destruct (IH _ _ eq_refl) as (r & ->). now exists r.
Qed.

Lemma starts_with_monotone sep : monotone (starts_with sep).
Proof.
  intros x w H. rewrite <- lit_prefix_starts_with in *.
  now apply lit_prefix_monotone.
Qed.

Lemma split_from_pieces sep s skip p :
  In p (split_from sep s skip) -> occurs (starts_with sep) p = false.
Proof.
  revert skip p; induction s as [|c s IH]; intros skip p; cbn [split_from].
  - intros [<- | []]. reflexivity.
  - destruct skip as [|k]; [|apply IH].
    destruct (starts_with sep (c :: s)) eqn:E.
    + cbv beta iota. cbn [In]. intros [<- | H]; [reflexivity|now apply IH in H].
    + destruct (split_from sep s 0) as [|p' ps'] eqn:Es.
      * now destruct (split_from_nonempty sep s 0).
      * cbv beta iota. cbn [In]. intros [<- | H]; [|apply (IH 0); rewrite Es; now right].
        cbn [occurs]. rewrite (IH 0 p') by (rewrite Es; now left). rewrite orb_false_r.
        destruct (split_from_head _ _ _ _ Es) as (r & ->).
        destruct (starts_with sep (c :: p')) eqn:E'; [|reflexivity].
        apply (starts_with_monotone sep _ r) in E'. simpl in E'. congruence.
Qed.

Lemma has_starts_with sep p : has sep p = occurs (starts_with sep) p.
Proof. unfold has. apply occurs_ext. intros x. apply lit_prefix_starts_with. Qed.

(** X1: the pieces that [split] cuts the text into, joined again with the
    delimiter, are the text; no piece holds the delimiter.  So the candidate
    blocks and the preamble partition the input. *)
Theorem split_partitions (t : text) :
  join delimiter (split delimiter t) = t
  /\ forall p, In p (split delimiter t) -> has delimiter p = false.
Proof.
  split.
  - unfold split. now rewrite split_from_join.
  - intros p Hp. rewrite has_starts_with. now apply (split_from_pieces delimiter t 0).
Qed.

Lemma preamble_skip (pre t : text) :
  has delimiter pre = false ->
  parse_questions (pre ++ delimiter ++ t) = parse_questions (delimiter ++ t).
Proof.
  intros H. unfold parse_questions.
  replace (tl (split delimiter (pre ++ delimiter ++ t)))
    with (tl (split delimiter (delimiter ++ t))); [reflexivity|].
  unfold split.
  pose proof (split_from_delimiter "["%char (str "Question_") t) as E.
  change ("["%char :: str "Question_") with delimiter in E.
  rewrite (split_from_text delimiter pre (delimiter ++ t) [] (split_from delimiter t 0));
    [now rewrite E| |exact E].
  now apply nostart_delimiter.
Qed.

(** X2: what stands before the first delimiter is discarded. *)
Theorem preamble_discarded (pre t : text) :
  has delimiter pre = false ->
  parse_questions (pre ++ delimiter ++ t) = parse_questions (delimiter ++ t).
Proof. exact (preamble_skip pre t). Qed.

Lemma preamble_discarded_witness :
  has delimiter intro = false
  /\ parse_questions (intro ++ delimiter ++ render five_lines)
     = parse_questions (delimiter ++ render five_lines).
Proof.
  assert (H : has delimiter intro = false) by (vm_compute; reflexivity).
  exact (conj H (preamble_discarded intro (render five_lines) H)).
Defined.

(** ** Blocks are parsed one by one *)

Lemma forallb_app_true {A : Type} (f : A -> bool) l1 l2 :
  forallb f (l1 ++ l2) = true -> forallb f l1 = true /\ forallb f l2 = true.
Proof. rewrite forallb_app. intros H. now apply andb_true_iff in H. Qed.

(** X3: on a text cut into blocks by the delimiter, the output is made of
    what each block yields by itself, in the order of the blocks, cut to
    seven records; a block that yields nothing (its body raises, or it fails
    validation) can be removed without changing the output. *)
Theorem blocks_parsed_independently (pre : text) (bs1 bs2 : list text) (b : text) :
  has delimiter pre = false ->
  forallb (fun x => negb (has delimiter x)) (bs1 ++ b :: bs2) = true ->
  parse_questions (assemble pre (bs1 ++ b :: bs2))
  = Ok (firstn 7 (flat_map block_out bs1 ++ block_out b ++ flat_map block_out bs2))
  /\ (block_out b = [] ->
      parse_questions (assemble pre (bs1 ++ b :: bs2))
      = parse_questions (assemble pre (bs1 ++ bs2))).
Proof.
  intros Hp Hb.
  assert (E : parse_questions (assemble pre (bs1 ++ b :: bs2))
              = Ok (firstn 7 (flat_map block_out bs1 ++ block_out b ++ flat_map block_out bs2))).
  { rewrite parse_assemble by assumption. now rewrite flat_map_app. }
  split; [exact E|]. intros Hout. rewrite E, Hout.
  destruct (forallb_app_true _ _ _ Hb) as [H1 H2]. cbn [forallb] in H2.
  apply andb_true_iff in H2 as [_ H2].
  rewrite parse_assemble; [now rewrite flat_map_app|assumption|].
  rewrite forallb_app. now rewrite H1, H2.
Qed.

Lemma blocks_parsed_independently_witness :
  has delimiter intro = false
  /\ block_out (skipn 10 easy_text) = []
  /\ parse_questions (assemble intro ([render five_lines] ++ skipn 10 easy_text :: [render duplicate_block]))
     = parse_questions (assemble intro ([render five_lines] ++ [render duplicate_block])).
Proof.
  assert (H1 : has delimiter intro = false) by (vm_compute; reflexivity).
  assert (H2 : forallb (fun x => negb (has delimiter x))
                 ([render five_lines] ++ skipn 10 easy_text :: [render duplicate_block]) = true)
    by (vm_compute; reflexivity).
  assert (H3 : block_out (skipn 10 easy_text) = []) by (vm_compute; reflexivity).
  refine (conj H1 (conj H3 _)).
  exact (proj2 (blocks_parsed_independently intro _ _ _ H1 H2) H3).
Defined.

Lemma firstn_app_enough {A : Type} n (l1 l2 : list A) :
  n <= length l1 -> firstn n (l1 ++ l2) = firstn n l1.
Proof.
  intros H. rewrite firstn_app. replace (n - length l1) with 0 by lia.
  cbn [firstn]. apply app_nil_r.
Qed.

(** X4: once the blocks read so far have given seven records, nothing
    that follows changes the output. *)
Theorem later_blocks_ignored (pre : text) (bs1 bs2 : list text) :
  has delimiter pre = false ->
  forallb (fun x => negb (has delimiter x)) (bs1 ++ bs2) = true ->
  7 <= length (flat_map block_out bs1) ->
  parse_questions (assemble pre (bs1 ++ bs2)) = parse_questions (assemble pre bs1).
Proof.
  intros Hp Hb Hl. destruct (forallb_app_true _ _ _ Hb) as [H1 H2].
  rewrite !parse_assemble by assumption.
  now rewrite flat_map_app, firstn_app_enough.
Qed.

Lemma later_blocks_ignored_witness :
  has delimiter intro = false
  /\ 7 <= length (flat_map block_out (map render quiz7))
  /\ parse_questions (assemble intro (map render quiz7 ++ [render duplicate_block]))
     = parse_questions (assemble intro (map render quiz7)).
Proof.
  assert (H1 : has delimiter intro = false) by (vm_compute; reflexivity).
  assert (H2 : forallb (fun x => negb (has delimiter x))
                 (map render quiz7 ++ [render duplicate_block]) = true)
    by (vm_compute; reflexivity).
  assert (H3 : 7 <= length (flat_map block_out (map render quiz7)))
    by (vm_compute; lia).
  exact (conj H1 (conj H3 (later_blocks_ignored intro _ _ H1 H2 H3))).
Defined.

(** ** The fields of a record are trimmed *)

Lemma forallb_lstrip (p : ascii -> bool) t : forallb p t = true -> forallb p (lstrip t) = true.
Proof.
  destruct (lstrip_split t) as (w & E & _). intros H. rewrite E in H.
  now apply forallb_app_true in H.
Qed.

Lemma forallb_rstrip (p : ascii -> bool) t : forallb p t = true -> forallb p (rstrip t) = true.
Proof.
  destruct (rstrip_prefix t) as (w & E). intros H. rewrite E in H.
  now apply forallb_app_true in H.
Qed.

Lemma forallb_strip (p : ascii -> bool) t : forallb p t = true -> forallb p (strip t) = true.
Proof. intros H. unfold strip. now apply forallb_rstrip, forallb_lstrip. Qed.

Lemma m_star_run_inv fl a (k : cont) s g r :
  m_star fl a k s g = Some r ->
  exists w s', s = w ++ s' /\ forallb (cset_in fl a) w = true /\ k s' g = Some r.
Proof.
  induction s as [|c s IH]; simpl; [exists [], []; auto|].
  destruct (cset_in fl a c) eqn:Ec; [|intros H; exists [], (c :: s); auto].
  destruct (m_star fl a k s g) eqn:E.
  - intros [= <-]. destruct (IH eq_refl) as (w & s' & -> & Hw & Hk).
    exists (c :: w), s'. simpl. now rewrite Ec, Hw.
  - intros H. exists [], (c :: s). auto.
Qed.

Lemma match_option_line x g rest :
  match_here flags0 re_option x = Some (g, rest) ->
  forallb not_nl (nth 1 g []) = true.
Proof.
  unfold match_here, re_option, cat. cbn [fold_right rmatch]. intros H.
  unfold m_one in H. destruct x as [|c x]; [discriminate|].
  destruct (cset_in flags0 (Range "A" "D") c); [|discriminate].
  apply m_lit_some in H as (p & s & _ & _ & _ & H).
  apply m_star_some in H as (s' & H).
  unfold m_plus in H. destruct s' as [|c' s']; [discriminate|].
  destruct (cset_in flags0 Dot c') eqn:Ec; [|discriminate].
  apply m_star_run_inv in H as (w & s'' & -> & Hw & H).
  cbn [m_lit] in H. unfold accept in H.
  change (c' :: w ++ s'') with ((c' :: w) ++ s'') in H.
  rewrite firstn_consumed in H. injection H as <- _.
  cbn [app nth forallb]. apply andb_true_iff. split; [exact Ec|exact Hw].
Qed.

Lemma In_dict_set d k v kv : In kv (dict_set d k v) -> kv = (k, v) \/ In kv d.
Proof.
  induction d as [|[k' v'] d IH]; simpl; [intuition|].
  destruct (text_eqb k' k) eqn:E; simpl.
  - apply text_eqb_eq in E. subst. intuition.
  - intuition.
Qed.

Lemma In_dict_of kvs kv : In kv (dict_of kvs) -> In kv kvs.
Proof.
  unfold dict_of.
  assert (G : forall d, In kv (fold_left (fun d kv => dict_set d (fst kv) (snd kv)) kvs d)
                        -> In kv d \/ In kv kvs).
  { induction kvs as [|[k v] kvs IH]; intros d H; simpl in *; [now left|].
    apply IH in H as [H | H]; [|now right; right].
    apply In_dict_set in H as [-> | H]; [right; now left|now left]. }
  intros H. now apply G in H as [[] | H].
Qed.

(** X5: in every record of the output the question text is not empty
    and neither begins nor ends with a white space character, and every
    option text neither begins nor ends with a white space character and
    holds no line feed. *)
Theorem record_fields_trimmed (t : text) (qs : list question) (q : question) :
  parse_questions t = Ok qs -> In q qs ->
  question_text q <> [] /\ trimmed (question_text q)
  /\ forall k v, In (k, v) (options q) -> trimmed v /\ forallb not_nl v = true.
Proof.
  rewrite parse_questions_out. intros [= <-] Hin. apply In_firstn in Hin.
  apply in_flat_map in Hin as (block & _ & Hin).
  unfold block_out, try_body in Hin.
  destruct (group1 (re_search flagsI re_difficulty block)) as [d|e]; [|destruct Hin].
  destruct (group1 (re_search flagsS re_question block)) as [qt|e]; [|destruct Hin].
  destruct (group1 (re_search flagsS re_options block)) as [ot|e]; [|destruct Hin].
  destruct (group1 (re_search flags0 re_correct block)) as [a|e]; [|destruct Hin].
  cbn [bind] in Hin. destruct (all _) eqn:Ev; [|destruct Hin].
  destruct Hin as [<- | []]. cbn [question_text options].
  unfold all in Ev. cbn [forallb] in Ev. bool_hyps.
  split; [|split].
  - match goal with Hq : truthy (strip qt) = true |- _ => now destruct (strip qt) end.
  - apply strip_trimmed.
  - intros k v Hkv. apply In_dict_of in Hkv.
    apply in_map_iff in Hkv as (g & [= <- <-] & Hg).
    split; [apply strip_trimmed|]. apply forallb_strip.
    apply findall_in in Hg as (x & rest & Hg). now apply match_option_line in Hg.
Qed.

Lemma record_fields_trimmed_witness :
  b_question spaced_block = str "  Which one?   "
  /\ parse_questions (assemble [] [render spaced_block]) = Ok [spaced_record]
  /\ question_text spaced_record = str "Which one?"
  /\ trimmed (question_text spaced_record).
Proof.
  assert (H1 : parse_questions (assemble [] [render spaced_block]) = Ok [spaced_record])
    by (vm_compute; reflexivity).
  assert (H2 : In spaced_record [spaced_record]) by (left; reflexivity).
  refine (conj eq_refl (conj H1 (conj eq_refl _))).
  exact (proj1 (proj2 (record_fields_trimmed _ _ _ H1 H2))).
Defined.

(** ** What the matcher consumes *)

Lemma m_plus_lazy_inv fl a (k : cont) s g r :
  m_plus_lazy fl a k s g = Some r ->
  exists w s', s = w ++ s' /\ w <> [] /\ forallb (cset_in fl a) w = true /\ k s' g = Some r.
Proof.
  induction s as [|c s IH]; simpl; [discriminate|].
  destruct (cset_in fl a c) eqn:Ec; [|discriminate].
  destruct (k s g) eqn:E.
  - intros [= <-]. exists [c], s. simpl. rewrite Ec. repeat split; auto; discriminate.
  - intros H. destruct (IH H) as (w & s' & -> & _ & Hw & Hk).
    exists (c :: w), s'. simpl. rewrite Ec, Hw. repeat split; auto; discriminate.
Qed.

(** The backtracking matcher is sound for the language of the pattern. *)
Lemma rmatch_sound fl r :
  forall (k : cont) s g res,
    rmatch fl r k s g = Some res ->
    exists p s' g',
      s = p ++ s' /\ lang fl r p /\ k s' g' = Some res
      /\ (groupless r = true -> g' = g).
Proof.
  induction r as [l|a|a|a|a|r1 IH1 r2 IH2|r1 IH1 r2 IH2|r IH];
    intros k s g res H; cbn [rmatch lang groupless] in *.
  - apply m_lit_some in H as (p & s' & -> & Hl & Hp & Hk).
    exists p, s', g. auto.
  - unfold m_one in H. destruct s as [|c s]; [discriminate|].
    destruct (cset_in fl a c) eqn:Ec; [|discriminate].
    exists [c], s, g. repeat split; eauto.
  - apply m_star_run_inv in H as (w & s' & -> & Hw & Hk).
    exists w, s', g. auto.
  - unfold m_plus in H. destruct s as [|c s]; [discriminate|].
    destruct (cset_in fl a c) eqn:Ec; [|discriminate].
    apply m_star_run_inv in H as (w & s' & -> & Hw & Hk).
    exists (c :: w), s', g. simpl. rewrite Ec, Hw. repeat split; auto; discriminate.
  - apply m_plus_lazy_inv in H as (w & s' & -> & Hn & Hw & Hk).
    exists w, s', g. auto.
  - destruct (rmatch fl r1 k s g) eqn:E.
    + injection H as ->. destruct (IH1 _ _ _ _ E) as (p & s' & g' & -> & Hp & Hk & Hg).
      exists p, s', g'. repeat split; auto. intros G. apply andb_true_iff in G as [G _]. auto.
    + destruct (IH2 _ _ _ _ H) as (p & s' & g' & -> & Hp & Hk & Hg).
      exists p, s', g'. repeat split; auto. intros G. apply andb_true_iff in G as [_ G]. auto.
  - destruct (IH1 _ _ _ _ H) as (p1 & s1 & g1 & -> & Hp1 & Hk1 & Hg1).
    destruct (IH2 _ _ _ _ Hk1) as (p2 & s2 & g2 & -> & Hp2 & Hk2 & Hg2).
    exists (p1 ++ p2), s2, g2. rewrite <- app_assoc. repeat split; eauto.
    intros G. apply andb_true_iff in G as [G1 G2]. rewrite Hg2, Hg1; auto.
  - destruct (IH _ _ _ _ H) as (p & s' & g' & -> & Hp & Hk & Hg).
    exists p, s', (g' ++ [firstn (length (p ++ s') - length s') (p ++ s')]).
    repeat split; auto; discriminate.
Qed.

Lemma search_with_some (m : text -> option match_obj) s r :
  search_with m s = Some r -> exists pre x, s = pre ++ x /\ m x = Some r.
Proof.
  induction s as [|c s IH]; simpl.
  - destruct (m []) eqn:E; [|discriminate]. intros [= <-]. now exists [], [].
  - destruct (m (c :: s)) eqn:E.
    + intros [= <-]. now exists [], (c :: s).
    + intros H. destruct (IH H) as (pre & x & -> & Hx). now exists (c :: pre), x.
Qed.

Lemma search_with_hit (m : text -> option match_obj) s r :
  m s = Some r -> search_with m s = Some r.
Proof. intros H. destruct s; simpl; now rewrite H. Qed.

(** ** [extract_video_id] *)

Lemma m_star_where_run p (k : cont) w s g r :
  forallb p w = true ->
  k s g = Some r ->
  match s with [] => true | c :: _ => negb (p c) end = true ->
  m_star_where p k (w ++ s) g = Some r.
Proof.
  intros Hw Hk Hs. induction w as [|c w IH]; simpl in *.
  - destruct s as [|c s]; simpl; [assumption|].
    apply negb_true_iff in Hs. now rewrite Hs.
  - apply andb_true_iff in Hw as [Hc Hw]. now rewrite Hc, (IH Hw).
Qed.

Lemma m_star_where_inv p (k : cont) s g r :
  m_star_where p k s g = Some r ->
  exists w s', s = w ++ s' /\ forallb p w = true /\ k s' g = Some r.
Proof.
  induction s as [|c s IH]; simpl; [exists [], []; auto|].
  destruct (p c) eqn:Ec; [|intros H; exists [], (c :: s); auto].
  destruct (m_star_where p k s g) eqn:E.
  - intros [= <-]. destruct (IH eq_refl) as (w & s' & -> & Hw & Hk).
    exists (c :: w), s'. simpl. now rewrite Ec, Hw.
  - intros H. exists [], (c :: s). auto.
Qed.

(** The group of the pattern on an id followed by a stop. *)
Lemma video_group id rest :
  id <> [] -> forallb id_char id = true -> at_stop rest = true ->
  m_plus_where id_char
    (fun s2 g2 => accept s2 (g2 ++ [firstn (length (id ++ rest) - length s2) (id ++ rest)]))
    (id ++ rest) []
  = Some ([id], rest).
Proof.
  intros Hn Hi Hr. destruct id as [|c w]; [congruence|].
  cbn [forallb] in Hi. apply andb_true_iff in Hi as [Hc Hw].
  unfold m_plus_where. cbn [app]. rewrite Hc.
  apply m_star_where_run; [assumption| |exact Hr].
  unfold accept. change (c :: w ++ rest) with ((c :: w) ++ rest).
  now rewrite firstn_consumed.
Qed.

(** X6: for a URL of one of the usual shapes (an optional [http://] or
    [https://], an optional [www.], then [youtube.com/watch?v=],
    [youtube.com/embed/] or [youtu.be/]) the result is the id: the text up
    to the first of [& ? #], a line break, or the end. *)
Theorem video_id_of_url (scheme www path id rest : text) :
  In scheme [[]; str "http://"; str "https://"] ->
  In www [[]; str "www."] ->
  In path [str "youtube.com/watch?v="; str "youtube.com/embed/"; str "youtu.be/"] ->
  id <> [] -> forallb id_char id = true -> at_stop rest = true ->
  extract_video_id (scheme ++ www ++ path ++ id ++ rest) = Some id.
Proof.
  intros Hs Hw Hp Hn Hi Hr.
  pose proof (video_group id rest Hn Hi Hr) as Hk.
  unfold extract_video_id.
  rewrite (search_with_hit _ _ ([id], rest)); [reflexivity|].
  unfold video_id_here. revert Hk. generalize (id ++ rest). intros tail Hk.
  destruct Hs as [<- | [<- | [<- | []]]];
    destruct Hw as [<- | [<- | []]];
    destruct Hp as [<- | [<- | [<- | []]]];
    cbn; rewrite Hk; reflexivity.
Qed.

Lemma video_id_of_url_witness :
  extract_video_id (str "https://www.youtube.com/watch?v=dQw4w9WgXcQ&t=43") = Some (str "dQw4w9WgXcQ").
Proof.
  apply (video_id_of_url (str "https://") (str "www.") (str "youtube.com/watch?v=")
           (str "dQw4w9WgXcQ") (str "&t=43")).
  - right; right; left; reflexivity.
  - right; left; reflexivity.
  - left; reflexivity.
  - discriminate.
  - reflexivity.
  - reflexivity.
Defined.

Lemma video_id_inv (url id : text) :
  extract_video_id url = Some id -> id <> [] /\ forallb id_char id = true.
Proof.
  unfold extract_video_id.
  destruct (search_with video_id_here url) as [[g r]|] eqn:E; [|discriminate].
  intros [= <-].
  apply search_with_some in E as (pre & x & -> & E). unfold video_id_here in E.
  apply rmatch_sound in E as (p & s1 & g1 & -> & _ & E & Hg).
  rewrite (Hg eq_refl) in E. clear Hg.
  unfold m_plus_where in E. destruct s1 as [|c s1]; [discriminate|].
  destruct (id_char c) eqn:Ec; [|discriminate].
  apply m_star_where_inv in E as (w & s2 & -> & Hw & E).
  unfold accept in E. change (c :: w ++ s2) with ((c :: w) ++ s2) in E.
  rewrite firstn_consumed in E. injection E as <- _.
  cbn [app nth forallb]. split; [discriminate|]. now rewrite Ec, Hw.
Qed.

(** X7: whatever the URL, an id that is returned is not empty and holds
    none of [& ? #] and no line break. *)
Theorem video_id_shape (url id : text) :
  extract_video_id url = Some id -> id <> [] /\ forallb id_char id = true.
Proof. exact (video_id_inv url id). Qed.

Lemma video_id_shape_witness :
  extract_video_id (str "see youtu.be/abc?x") = Some (str "abc")
  /\ forallb id_char (str "abc") = true.
Proof.
  assert (H : extract_video_id (str "see youtu.be/abc?x") = Some (str "abc"))
    by (vm_compute; reflexivity).
  exact (conj H (proj2 (video_id_shape _ _ H))).
Defined.

Lemma lit_exact l p :
  lit_prefix flags0 l p = true -> length p = length l -> p = l.
Proof.
  revert p; induction l as [|a l IH]; intros [|c p] H Hl; simpl in *; try easy.
  apply andb_true_iff in H as [H1 H2]. unfold chr_eq in H1. cbn in H1.
  apply Ascii.eqb_eq in H1. subst. f_equal. apply IH; auto.
Qed.

Lemma occurs_app_left P a b : monotone P -> occurs P a = true -> occurs P (a ++ b) = true.
Proof.
  intros HP. induction a as [|c a IH]; simpl; [discriminate|].
  intros H. apply orb_true_iff in H as [H | H].
  - apply (HP _ b) in H. simpl in H. now rewrite H.
  - rewrite (IH H). apply orb_true_r.
Qed.

Lemma occurs_app_right P a b : occurs P b = true -> occurs P (a ++ b) = true.
Proof.
  intros H. induction a as [|c a IH]; simpl; [assumption|].
  rewrite IH. apply orb_true_r.
Qed.

Lemma has_at_start l x : l <> [] -> has l (l ++ x) = true.
Proof.
  intros H. destruct l as [|a l]; [congruence|]. unfold has. cbn [app occurs].
  change (a :: l ++ x) with ((a :: l) ++ x). now rewrite lit_prefix_app.
Qed.

Lemma video_url_youtu p : lang flags0 re_video_url p -> has (str "youtu") p = true.
Proof.
  unfold re_video_url, cat, opt. cbn [fold_right lang].
  intros (p1 & q1 & -> & _ & p2 & q2 & -> & _ & p3 & q3 & -> & H & _).
  unfold has. apply occurs_app_right, occurs_app_right.
  apply occurs_app_left; [apply lit_prefix_monotone|].
  destruct H as [H | H].
  - destruct H as (a & b & -> & [Ha Hl] & _).
    apply lit_exact in Ha; [|assumption]. subst a.
    apply (has_at_start (str "youtu") (str "be.com/" ++ b)). discriminate.
  - destruct H as (a & b & -> & [Ha Hl] & _).
    apply lit_exact in Ha; [|assumption]. subst a.
    apply (has_at_start (str "youtu") b). discriminate.
Qed.

(** X8: a URL in which [youtu] does not occur has no id. *)
Theorem video_id_needs_youtu (url : text) :
  has (str "youtu") url = false -> extract_video_id url = None.
Proof.
  intros H. unfold extract_video_id.
  destruct (search_with video_id_here url) as [[g r]|] eqn:E; [|reflexivity].
  apply search_with_some in E as (pre & x & -> & E). unfold video_id_here in E.
  apply rmatch_sound in E as (p & s1 & g1 & -> & Hp & _).
  apply video_url_youtu in Hp.
  assert (Ht : has (str "youtu") (pre ++ p ++ s1) = true).
  { unfold has in *. apply occurs_app_right.
    apply occurs_app_left; [apply lit_prefix_monotone|assumption]. }
  congruence.
Qed.

Lemma video_id_needs_youtu_witness :
  has (str "youtu") (str "https://vimeo.com/watch?v=abc") = false
  /\ extract_video_id (str "https://vimeo.com/watch?v=abc") = None.
Proof.
  assert (H : has (str "youtu") (str "https://vimeo.com/watch?v=abc") = false)
    by (vm_compute; reflexivity).
  exact (conj H (video_id_needs_youtu _ H)).
Defined.

(** X9: the dot of [youtu.be] in the pattern stands for any character but
    a line break: a URL that begins with [youtu], one such character and
    [be/] is taken as a video link. *)
Theorem any_character_for_the_dot (c : ascii) (id rest : text) :
  c <> nl ->
  id <> [] -> forallb id_char id = true -> at_stop rest = true ->
  extract_video_id (str "youtu" ++ c :: str "be/" ++ id ++ rest) = Some id.
Proof.
  intros Hc Hn Hi Hr.
  pose proof (video_group id rest Hn Hi Hr) as Hk.
  unfold extract_video_id.
  rewrite (search_with_hit _ _ ([id], rest)); [reflexivity|].
  unfold video_id_here. revert Hk. generalize (id ++ rest). intros tail Hk.
  assert (Ec : Ascii.eqb c nl = false) by now apply Ascii.eqb_neq.
  unfold re_video_url, cat, opt. cbn [fold_right rmatch].
  rewrite (m_lit_none flags0 (str "http")) by reflexivity.
  cbn [m_lit]. rewrite (m_lit_none flags0 (str "www.")) by reflexivity.
  rewrite (m_lit_none flags0 (str "youtube.com/")).
  - rewrite (m_lit_app flags0 (str "youtu")). unfold m_one at 1.
    cbn [cset_in DOTALL flags0 orb]. rewrite Ec. cbn [negb].
    rewrite (m_lit_app flags0 (str "be/")). cbn [m_lit]. exact Hk.
  - cbn. apply andb_false_r.
Qed.

Lemma any_character_for_the_dot_witness :
  extract_video_id (str "youtuXbe/abc") = Some (str "abc").
Proof.
  apply (any_character_for_the_dot "X" (str "abc") []); try reflexivity; discriminate.
Defined.

(** ** [generate_questions] *)

Lemma record_ok_checked q : record_ok q -> record_checked q.
Proof. intros (_ & H). exact H. Qed.

(** X10: [generate_questions] gives [None] exactly when the call of the
    model raises or its text is empty; otherwise it gives at most seven
    records, each with a question that is not empty, four options A to D
    and an answer among them.  Only the first 5000 characters of the
    transcript count. *)
Theorem generate_questions_result (llm : text -> option text) (transcript : text) :
  (generate_questions llm transcript = None
   <-> llm (prompt transcript) = None \/ llm (prompt transcript) = Some [])
  /\ (forall qs,
        generate_questions llm transcript = Some qs ->
        length qs <= 7 /\ forall q, In q qs -> record_checked q)
  /\ (forall t',
        firstn 5000 t' = firstn 5000 transcript ->
        generate_questions llm t' = generate_questions llm transcript).
Proof.
  unfold generate_questions. split; [|split].
  - destruct (llm (prompt transcript)) as [[|c r]|].
    + split; auto.
    + rewrite parse_questions_out. split; [discriminate|]. intros [H | H]; discriminate.
    + split; auto.
  - intros qs H. destruct (llm (prompt transcript)) as [[|c r]|]; try discriminate.
    destruct (parse_questions (c :: r)) as [l|e] eqn:E; [|discriminate].
    injection H as <-. split.
    + rewrite parse_questions_out in E. injection E as <-. apply firstn_le_length.
    + intros q Hq. apply record_ok_checked. now apply (parse_questions_ok _ _ _ E).
  - intros t' H. unfold prompt. now rewrite H.
Qed.

Lemma generate_questions_result_witness :
  generate_questions llm_sample [] = Some [duplicate_record]
  /\ length [duplicate_record] <= 7.
Proof.
  assert (H : generate_questions llm_sample [] = Some [duplicate_record])
    by (vm_compute; reflexivity).
  exact (conj H (proj1 (proj1 (proj2 (generate_questions_result llm_sample [])) _ H))).
Defined.

(** ** Scoring after the display of the questions *)

Lemma submit_score st q qs' :
  questions st = Some (q :: qs') ->
  submit_answers st true
  = Ok {| questions := questions st; answers := answers st;
          score := (inject_Z (Z.of_nat (num_right (q :: qs') (answers st)))
                    / inject_Z (Z.of_nat (length (q :: qs'))) * 100)%Q |}.
Proof.
  intros H. unfold submit_answers. rewrite H. unfold truediv.
  cbn [length Nat.eqb bind]. now rewrite count_correct_num_right.
Qed.

(** The exact score of [submit_answers] against the number that Python
    stores: on up to seven questions they differ by [rounding] at most. *)
Lemma stored_near_exact st q qs' :
  questions st = Some (q :: qs') ->
  length (q :: qs') <= 7 ->
  exists st' f v,
    submit_answers st true = Ok st'
    /\ score_stored (q :: qs') (answers st) = Ok f
    /\ Q_of_float f = Some v
    /\ (Qabs (v - score st') <= rounding)%Q.
Proof.
  intros H Hl.
  pose proof (num_right_le (q :: qs') (answers st)) as Hle.
  assert (Hn : 1 <= length (q :: qs') <= 7) by (cbn [length] in *; lia).
  destruct (score_near_inv _ _ (score_near_all _ _ Hn Hle)) as (v & Hv & _ & _ & Hr & _).
  eexists. exists (score_binary64 (num_right (q :: qs') (answers st)) (length (q :: qs'))), v.
  split; [exact (submit_score st q qs' H)|].
  split; [apply score_stored_binary64; discriminate|].
  split; [exact Hv|]. cbn [score].
  rewrite percent_formula by discriminate. exact Hr.
Qed.

Lemma percent_pass (c n : nat) :
  n <> 0 ->
  Qle_bool 70 (inject_Z (Z.of_nat c) / inject_Z (Z.of_nat n) * 100) = true
  <-> 7 * n <= 10 * c.
Proof.
  intros Hn. rewrite Qle_bool_iff. destruct n as [|m]; [congruence|].
  change (Z.of_nat (S m)) with (Z.pos (Pos.of_succ_nat m)).
  unfold Qle, Qdiv, Qmult, Qinv, inject_Z. cbn [Qnum Qden].
  rewrite ?Pos.mul_1_l, ?Pos.mul_1_r, ?Z.mul_1_r, Zpos_P_of_succ_nat. lia.
Qed.

(** X11: after [Submit Answers] on n >= 1 questions the certificate
    branch is taken exactly when 10 * (right answers) >= 7 * n, that is with
    at least 5 right answers out of 7.  For the question counts that the
    parser can give (1 to 7) the binary64 value of [(correct / n) * 100]
    takes the same side of 70 as the exact one. *)
Theorem pass_mark :
  (forall st q qs',
      questions st = Some (q :: qs') ->
      exists st',
        submit_answers st true = Ok st'
        /\ (passed st' = true
            <-> 7 * length (q :: qs') <= 10 * num_right (q :: qs') (answers st))
        /\ (length (q :: qs') = 7 ->
            (passed st' = true <-> 5 <= num_right (q :: qs') (answers st))))
  /\ (forall n correct,
        1 <= n <= 7 -> correct <= n ->
        PrimFloat.leb 70 (score_binary64 correct n) = (7 * n <=? 10 * correct)).
Proof.
  split.
  - intros st q qs' H. eexists. split; [exact (submit_score st q qs' H)|].
    unfold passed. cbn [score].
    pose proof (percent_pass (num_right (q :: qs') (answers st)) (length (q :: qs'))
                  ltac:(discriminate)) as P.
    split; [exact P|]. intros L. rewrite P, L. lia.
  - intros n c Hn Hc.
    assert (Hn' : n = 1 \/ n = 2 \/ n = 3 \/ n = 4 \/ n = 5 \/ n = 6 \/ n = 7) by lia.
    destruct Hn' as [-> | [-> | [-> | [-> | [-> | [-> | ->]]]]]];
      do 8 (destruct c as [|c]; [vm_compute; reflexivity|]); lia.
Qed.

Lemma pass_mark_witness :
  (exists st',
      submit_answers session_ABXD true = Ok st'
      /\ (passed st' = true
          <-> 7 * length four_questions <= 10 * num_right four_questions (answers session_ABXD)))
  /\ PrimFloat.leb 70 (score_binary64 5 7) = true
  /\ PrimFloat.leb 70 (score_binary64 4 7) = false.
Proof.
  split; [|split].
  - destruct (proj1 pass_mark session_ABXD _ _ eq_refl) as (st' & H1 & H2 & _).
    exists st'. exact (conj H1 H2).
  - exact (proj2 pass_mark 7 5 ltac:(lia) ltac:(lia)).
  - exact (proj2 pass_mark 7 4 ltac:(lia) ltac:(lia)).
Defined.

(** ** The radio buttons *)

Lemma record_checked_key q kv :
  record_checked q -> In kv (options q) -> exists c, fst kv = [c] /\ In [c] (keys (options q)).
Proof.
  intros (_ & _ & _ & Hi & _) Hin.
  assert (Hk : In (fst kv) (keys (options q))) by (unfold keys; now apply in_map).
  pose proof (Hi _ Hk) as Hl. unfold letters in Hl. simpl in Hl.
  destruct Hl as [E | [E | [E | [E | []]]]]; rewrite <- E in *; eauto.
Qed.

Lemma selected_key radio i q :
  radio_contract radio -> record_checked q ->
  first_char (radio i (map label_of (options q))) = Done (selected radio i q)
  /\ In (selected radio i q) (keys (options q)).
Proof.
  intros Hr Hq. unfold selected. specialize (Hr i (map label_of (options q))).
  destruct (radio i (map label_of (options q))) as [o|].
  - apply in_map_iff in Hr as (kv & <- & Hin).
    destruct (record_checked_key q kv Hq Hin) as (c & E & Hk).
    unfold label_of. rewrite E. cbn [app first_char]. auto.
  - destruct Hq as (_ & _ & Hl & _).
    destruct (options q); [discriminate Hl|discriminate Hr].
Qed.

Lemma display_from_ok radio qs :
  radio_contract radio ->
  forall s (a0 : gmap nat text),
    (forall x, In x qs -> record_checked x) ->
    exists a,
      display_from radio (combine (seq s (length qs)) qs) a0 = Done a
      /\ (forall i x, nth_error qs i = Some x ->
                      a !! (s + i) = Some (selected radio (s + i) x))
      /\ (forall j, j < s \/ s + length qs <= j -> a !! j = a0 !! j).
Proof.
  intros Hr. induction qs as [|q qs IH]; intros s a0 Hq.
  - exists a0. cbn. repeat split; auto. intros [|i] x H; discriminate H.
  - cbn [length seq combine display_from fst snd].
    destruct (selected_key radio s q Hr (Hq q (or_introl eq_refl))) as [E _].
    rewrite E.
    destruct (IH (S s) (<[s := selected radio s q]> a0)) as (a & Ha & Hin & Hout).
    { intros x Hx. apply Hq. now right. }
    exists a. split; [exact Ha|]. split.
    + intros [|i] x Hx; cbn [nth_error] in Hx.
      * injection Hx as <-. rewrite Nat.add_0_r. rewrite Hout by lia.
        apply lookup_insert_eq.
      * replace (s + S i) with (S s + i) by lia. now apply Hin.
    + intros j Hj. cbn [length] in Hj. rewrite Hout by lia.
      apply lookup_insert_ne. lia.
Qed.

Lemma display_questions_ok radio st q qs' :
  radio_contract radio ->
  questions st = Some (q :: qs') ->
  (forall x, In x (q :: qs') -> record_checked x) ->
  exists a,
    display_questions radio st
    = Done {| questions := questions st; answers := a; score := score st |}
    /\ (forall i x, nth_error (q :: qs') i = Some x ->
                    a !! i = Some (selected radio i x)
                    /\ In (selected radio i x) (keys (options x)))
    /\ (forall j, length (q :: qs') <= j -> a !! j = answers st !! j).
Proof.
  intros Hr Hqs Hok. unfold display_questions, enumerate. rewrite Hqs.
  destruct (display_from_ok radio (q :: qs') Hr 0 (answers st) Hok) as (a & Ha & Hin & Hout).
  exists a. rewrite Ha. split; [reflexivity|]. split.
  - intros i x Hx. split; [exact (Hin i x Hx)|].
    apply selected_key; [assumption|]. apply Hok. now apply nth_error_In in Hx.
  - intros j Hj. apply Hout. lia.
Qed.


Lemma radio_first_contract : radio_contract radio_first.
Proof. intros i [|o opts]; simpl; auto. Qed.

Lemma four_questions_ok x : In x four_questions -> record_ok x.
Proof.
  assert (Hn : List.NoDup letters)
    by (unfold letters; repeat constructor; simpl; intuition discriminate).
  intros H. simpl in H.
  destruct H as [<- | [<- | [<- | [<- | []]]]];
    (unfold record_ok; cbn [difficulty question_text options answer keys map fst];
     repeat split; auto; try discriminate; try exact Hn; try (intros k Hk; exact Hk);
     simpl; auto 6).
Qed.


(** ** Display, then submit *)

Lemma num_right_ext qs (a a' : gmap nat text) :
  (forall i, i < length qs -> get a i = get a' i) -> num_right qs a = num_right qs a'.
Proof.
  intros H. unfold num_right. f_equal. apply List.filter_ext_in.
  intros i Hi. apply in_seq in Hi. rewrite H by lia. reflexivity.
Qed.

Lemma num_right_selected radio qs (a : gmap nat text) :
  (forall i x, nth_error qs i = Some x -> a !! i = Some (selected radio i x)) ->
  num_right qs a = num_selected_right radio qs.
Proof.
  intros H. unfold num_right, num_selected_right. f_equal. apply List.filter_ext_in.
  intros i Hi. destruct (nth_error qs i) as [x|] eqn:E; [|reflexivity].
  specialize (H i x E). unfold get. unfold text in *. now rewrite H.
Qed.

Lemma filter_seq_all (f : nat -> bool) s n :
  (forall i, s <= i < s + n -> f i = true) -> length (List.filter f (seq s n)) = n.
Proof.
  intros H. rewrite filter_all; [apply length_seq|].
  apply forallb_forall. intros i Hi. apply in_seq in Hi. now apply H.
Qed.

(** X13: displaying the questions and then submitting stores the
    binary64 value of [(k / n) * 100], where k is the number of questions
    whose selected key is the answer; when every selection is the answer,
    on up to seven questions, the stored score is 100.0 and the certificate
    branch is taken. *)
Theorem score_of_selection
  (radio : nat -> list text -> option text) (st : session) (q : question) (qs' : list question) :
  radio_contract radio ->
  questions st = Some (q :: qs') ->
  (forall x, In x (q :: qs') -> record_checked x) ->
  exists st1,
    display_questions radio st = Done st1
    /\ questions st1 = Some (q :: qs')
    /\ score_stored (q :: qs') (answers st1)
       = Ok (score_binary64 (num_selected_right radio (q :: qs')) (length (q :: qs')))
    /\ (length (q :: qs') <= 7 ->
        (forall i x, nth_error (q :: qs') i = Some x -> selected radio i x = answer x) ->
        exists f,
          score_stored (q :: qs') (answers st1) = Ok f
          /\ f = 100%float /\ PrimFloat.leb 70 f = true).
Proof.
  intros Hr Hqs Hok.
  destruct (display_questions_ok radio st q qs' Hr Hqs Hok) as (a & Ha & Hin & _).
  eexists. split; [exact Ha|]. cbn [questions answers]. split; [exact Hqs|].
  assert (E : score_stored (q :: qs') a
              = Ok (score_binary64 (num_selected_right radio (q :: qs')) (length (q :: qs')))).
  { rewrite score_stored_binary64 by discriminate.
    now rewrite (num_right_selected radio (q :: qs') a) by (intros i x Hx; apply (Hin i x Hx)). }
  split; [exact E|]. intros Hl Hall.
  assert (E100 : score_stored (q :: qs') a = Ok 100%float);
    [|exists 100%float; split; [exact E100|split; reflexivity]].
  rewrite E. f_equal.
  assert (En : num_selected_right radio (q :: qs') = length (q :: qs')).
  { unfold num_selected_right. apply filter_seq_all. intros i Hi.
    destruct (nth_error (q :: qs') i) as [x|] eqn:Ex.
    - rewrite (Hall i x Ex). now apply text_eqb_eq.
    - apply nth_error_None in Ex. lia. }
  rewrite En. cbn [length] in Hl |- *. revert Hl. generalize (length qs'). intros m Hl.
  do 7 (destruct m as [|m]; [vm_compute; reflexivity|]). lia.
Qed.

Lemma score_of_selection_witness :
  radio_contract radio_first
  /\ exists st1,
       display_questions radio_first session_ABXD = Done st1
       /\ score_stored four_questions (answers st1)
          = Ok (score_binary64 (num_selected_right radio_first four_questions) 4)
       /\ num_selected_right radio_first four_questions = 1.
Proof.
  split; [exact radio_first_contract|].
  destruct (score_of_selection radio_first session_ABXD _ _
              radio_first_contract eq_refl
              (fun x Hx => record_ok_checked x (four_questions_ok x Hx)))
    as (st1 & H1 & _ & H3 & _).
  exists st1. refine (conj H1 (conj H3 _)). vm_compute. reflexivity.
Defined.

(** X14: the score depends on the answers stored under the indices of
    the questions only: answers left under other indices, and the previous
    score, have no effect. *)
Theorem stale_answers_ignored (qs : list question) (a a' : gmap nat text) (s s' : Q) :
  qs <> [] ->
  (forall i, i < length qs -> get a i = get a' i) ->
  exists r,
    submit_answers {| questions := Some qs; answers := a; score := s |} true
    = Ok {| questions := Some qs; answers := a; score := r |}
    /\ submit_answers {| questions := Some qs; answers := a'; score := s' |} true
       = Ok {| questions := Some qs; answers := a'; score := r |}.
Proof.
  intros Hn H. destruct qs as [|q qs']; [congruence|].
  eexists. split.
  - exact (submit_score {| questions := Some (q :: qs'); answers := a; score := s |} q qs' eq_refl).
  - rewrite (submit_score {| questions := Some (q :: qs'); answers := a'; score := s' |} q qs' eq_refl).
    cbn [questions answers]. now rewrite (num_right_ext _ a a').
Qed.

Lemma stale_answers_ignored_witness :
  exists r,
    submit_answers {| questions := Some four_questions; answers := answers session_ABXD;
                      score := 0 |} true
    = Ok {| questions := Some four_questions; answers := answers session_ABXD; score := r |}
    /\ submit_answers {| questions := Some four_questions;
                         answers := <[9 := str "A"]> (answers session_ABXD);
                         score := 50 |} true
       = Ok {| questions := Some four_questions;
               answers := <[9 := str "A"]> (answers session_ABXD); score := r |}.
Proof.
  apply stale_answers_ignored; [discriminate|].
  intros i Hi. unfold get. rewrite lookup_insert_ne; [reflexivity|].
  simpl in Hi. lia.
Defined.

(** X15: submitting twice gives what submitting once gives. *)
Theorem submit_twice (st st1 : session) (button : bool) :
  submit_answers st button = Ok st1 -> submit_answers st1 button = Ok st1.
Proof.
  unfold submit_answers at 1.
  destruct (questions st) as [[|q qs']|] eqn:E;
    try (intros H; injection H as <-; unfold submit_answers; now rewrite E).
  destruct button;
    [|intros H; injection H as <-; unfold submit_answers; now rewrite E].
  unfold truediv. cbn [length Nat.eqb bind]. intros H. injection H as <-.
  unfold submit_answers. cbn [questions answers]. rewrite ?E.
  unfold truediv. cbn [length Nat.eqb bind]. reflexivity.
Qed.

Lemma submit_twice_witness :
  exists st1, submit_answers session_ABXD true = Ok st1 /\ submit_answers st1 true = Ok st1.
Proof.
  eexists. split; [reflexivity|]. apply (submit_twice session_ABXD). reflexivity.
Defined.

(** ** The session over a run of the script *)

Lemma generate_questions_ok llm transcript qs :
  generate_questions llm transcript = Some qs ->
  length qs <= 7 /\ forall q, In q qs -> record_checked q.
Proof.
  unfold generate_questions.
  destruct (llm (prompt transcript)) as [[|c r]|]; try discriminate.
  destruct (parse_questions (c :: r)) as [l|e] eqn:E; [|discriminate].
  intros [= <-]. split.
  - rewrite parse_questions_out in E. injection E as <-. apply firstn_le_length.
  - intros q Hq. apply record_ok_checked. now apply (parse_questions_ok _ _ _ E).
Qed.

Lemma valid_initial : valid_session initial_session.
Proof.
  unfold valid_session, initial_session. cbn [questions answers score].
  split; [|split; [|split]].
  - intros qs [= <-]. split; [simpl; lia|intros q []].
  - intros i [x Hx]. rewrite lookup_empty in Hx. discriminate.
  - discriminate.
  - discriminate.
Qed.

Lemma generate_quiz_valid fetch llm st url button :
  valid_session st -> valid_session (generate_quiz fetch llm st url button).
Proof.
  intros Hv. unfold generate_quiz.
  destruct (truthy url); [|assumption].
  destruct (extract_video_id url) as [vid|]; [|assumption].
  destruct (truthy vid && button); [|assumption].
  destruct (get_transcript fetch vid) as [t|]; [|assumption].
  destruct (truthy t); [|assumption].
  unfold valid_session. cbn [questions answers score].
  split; [|split; [|split]].
  - intros qs H. now apply generate_questions_ok in H.
  - intros i [x Hx]. rewrite lookup_empty in Hx. discriminate.
  - discriminate.
  - discriminate.
Qed.

Lemma display_questions_valid radio st :
  radio_contract radio -> valid_session st ->
  exists st', display_questions radio st = Done st' /\ valid_session st'.
Proof.
  intros Hr Hv. pose proof Hv as (Hq & Ha & Hs).
  destruct (questions st) as [[|q qs']|] eqn:E.
  - exists st. unfold display_questions. now rewrite E.
  - destruct (Hq _ eq_refl) as [Hl Hok].
    destruct (display_questions_ok radio st q qs' Hr E Hok) as (a & Hd & _ & Hout).
    eexists. split; [exact Hd|].
    unfold valid_session. cbn [questions answers score]. rewrite E.
    split; [exact Hq|]. split; [|exact Hs].
    intros i Hi. cbn [default].
    destruct (Nat.lt_ge_cases i (length (q :: qs'))) as [Hlt | Hge]; [exact Hlt|].
    rewrite (Hout i Hge) in Hi. apply Ha in Hi. exact Hi.
  - exists st. unfold display_questions. now rewrite E.
Qed.

Lemma submit_answers_valid st button :
  valid_session st -> exists st', submit_answers st button = Ok st' /\ valid_session st'.
Proof.
  intros Hv. pose proof Hv as (Hq & Ha & Hs).
  destruct (questions st) as [[|q qs']|] eqn:E.
  - exists st. unfold submit_answers. now rewrite E.
  - destruct button.
    + eexists. split; [exact (submit_score st q qs' E)|].
      unfold valid_session. cbn [questions answers score]. rewrite E.
      split; [exact Hq|]. split; [exact Ha|].
      apply percent_range; [discriminate|apply num_right_le].
    + exists st. unfold submit_answers. rewrite E. split; [reflexivity|].
      unfold valid_session. rewrite E. auto.
  - exists st. unfold submit_answers. now rewrite E.
Qed.

Lemma score_binary64_range n correct :
  1 <= n <= 7 -> correct <= n ->
  PrimFloat.leb 0 (score_binary64 correct n) = true
  /\ PrimFloat.leb (score_binary64 correct n) 100 = true.
Proof.
  intros Hn Hc.
  assert (Hn' : n = 1 \/ n = 2 \/ n = 3 \/ n = 4 \/ n = 5 \/ n = 6 \/ n = 7) by lia.
  destruct Hn' as [-> | [-> | [-> | [-> | [-> | [-> | ->]]]]]];
    do 8 (destruct correct as [|correct];
          [first [split; vm_compute; reflexivity | lia]|]); lia.
Qed.

(** X16: what the script keeps true of the session, from its initial
    value on and through every run (any URL, any buttons, any answers of the
    services, and a [st.radio] that gives one of its options): the run
    reaches the end of the scoring step without an exception; [questions] is
    [None] or at most seven records, each with a question that is not
    empty, four options A to D and an answer among them; every key of
    [answers] is the index of a question; the score is between 0 and 100.
    On the numbers of questions that the invariant allows, the binary64
    number that Python stores as the score is between 0 and 100 as well. *)
Theorem session_stays_valid :
  valid_session initial_session
  /\ (forall fetch llm radio st url generate submit,
        radio_contract radio ->
        valid_session st ->
        exists st',
          rerun fetch llm radio st url generate submit = Done st' /\ valid_session st')
  /\ (forall qs answers,
        1 <= length qs <= 7 ->
        exists f,
          score_stored qs answers = Ok f
          /\ PrimFloat.leb 0 f = true /\ PrimFloat.leb f 100 = true).
Proof.
  split; [exact valid_initial|]. split.
  - intros fetch llm radio st url generate submit Hr Hv. unfold rerun.
    destruct (display_questions_valid radio _ Hr (generate_quiz_valid fetch llm st url generate Hv))
      as (st1 & E1 & Hv1).
    rewrite E1.
    destruct (submit_answers_valid st1 submit Hv1) as (st2 & E2 & Hv2).
    rewrite E2. eauto.
  - intros qs answers Hn. eexists. split.
    + apply score_stored_binary64. destruct qs; [simpl in Hn; lia|discriminate].
    + apply score_binary64_range; [assumption|apply num_right_le].
Qed.

Lemma session_stays_valid_witness :
  radio_contract radio_first
  /\ valid_session initial_session
  /\ exists st',
       rerun fetch_sample llm_sample radio_first initial_session
         (str "https://youtu.be/abc") true true = Done st'
       /\ valid_session st'.
Proof.
  refine (conj radio_first_contract (conj (proj1 session_stays_valid) _)).
  exact (proj1 (proj2 session_stays_valid) fetch_sample llm_sample radio_first initial_session
           (str "https://youtu.be/abc") true true radio_first_contract
           (proj1 session_stays_valid)).
Defined.

(** ** One record per block at most *)

Lemma block_out_length block : length (block_out block) <= 1.
Proof.
  unfold block_out. destruct (try_body block []) as [l|e] eqn:E; [|simpl; lia].
  apply try_body_inv in E as [-> | (q & -> & _)]; simpl; lia.
Qed.

Lemma flat_map_block_out_length blocks : length (flat_map block_out blocks) <= length blocks.
Proof.
  induction blocks as [|b bs IH]; [simpl; lia|].
  cbn [flat_map length]. rewrite length_app.
  pose proof (block_out_length b). lia.
Qed.

(** X17: a block gives one record at most: the number of records is at
    most the number of delimiters in the text, and at most seven. *)
Theorem one_record_per_block (t : text) :
  exists qs,
    parse_questions t = Ok qs
    /\ length qs <= length (split delimiter t) - 1
    /\ length qs <= 7.
Proof.
  rewrite parse_questions_out. eexists. split; [reflexivity|].
  rewrite length_firstn. pose proof (flat_map_block_out_length (tl (split delimiter t))) as H.
  destruct (split delimiter t) as [|p ps]; cbn [tl length flat_map] in *; lia.
Qed.

(** ** The prompt read back *)

Lemma prompt_preamble t5 :
  has delimiter t5 = false ->
  exists block,
    prompt_head ++ t5 ++ prompt_tail = (prompt_head ++ t5 ++ str "

**FORMAT RULES**:
") ++ delimiter ++ block
    /\ has delimiter (prompt_head ++ t5 ++ str "

**FORMAT RULES**:
") = false
    /\ parse_questions (delimiter ++ block) = Ok [].
Proof.
  intros H. eexists. split; [|split].
  - rewrite <- !app_assoc. reflexivity.
  - unfold has in *.
    rewrite (occurs_skip_fixed flags0 delimiter prompt_head) by (vm_compute; reflexivity).
    change (str "

**FORMAT RULES**:
") with (nl :: str "
**FORMAT RULES**:
").
    rewrite occurs_skip_line; [|assumption|reflexivity].
    vm_compute. reflexivity.
  - vm_compute. reflexivity.
Qed.

(** X18: the format example that the prompt carries is not a question
    for the parser (its [Correct:] line holds no letter A to D): a response
    that repeats the prompt, for a transcript whose first 5000 characters
    hold no delimiter, gives no record. *)
Theorem prompt_is_no_question (transcript : text) :
  has delimiter (firstn 5000 transcript) = false ->
  parse_questions (prompt transcript) = Ok [].
Proof.
  intros H. unfold prompt.
  destruct (prompt_preamble (firstn 5000 transcript) H) as (block & E & Hp & Hb).
  rewrite E, (preamble_skip _ _ Hp). exact Hb.
Qed.

Lemma prompt_is_no_question_witness :
  has delimiter (firstn 5000 (str "a talk about caches")) = false
  /\ parse_questions (prompt (str "a talk about caches")) = Ok [].
Proof.
  assert (H : has delimiter (firstn 5000 (str "a talk about caches")) = false)
    by (vm_compute; reflexivity).
  exact (conj H (prompt_is_no_question _ H)).
Defined.

(** ** A generation that fails *)

(** X19: when [Generate Quiz] is pressed for a URL with a video id and a
    transcript that is not empty, and the call of the model raises or gives
    an empty text, the previous quiz is lost: [questions] becomes [None],
    the answers and the score are reset, and neither the display nor
    [Submit Answers] does anything in that run. *)
Theorem failed_generation_clears_quiz
  (fetch : text -> option (list text)) (llm : text -> option text)
  (radio : nat -> list text -> option text)
  (st : session) (url video_id transcript : text) (submit : bool) :
  extract_video_id url = Some video_id ->
  get_transcript fetch video_id = Some transcript ->
  transcript <> [] ->
  llm (prompt transcript) = None \/ llm (prompt transcript) = Some [] ->
  rerun fetch llm radio st url true submit
  = Done {| questions := None; answers := ∅; score := 0 |}.
Proof.
  intros Hu Ht Hn Hl.
  assert (Hurl : truthy url = true).
  { destruct url; [vm_compute in Hu; discriminate|reflexivity]. }
  assert (Hid : truthy video_id = true).
  { destruct (video_id_inv _ _ Hu) as [Hi _]. now destruct video_id. }
  assert (Htr : truthy transcript = true) by now destruct transcript.
  assert (Hg : generate_questions llm transcript = None).
  { unfold generate_questions. now destruct Hl as [-> | ->]. }
  unfold rerun, generate_quiz. rewrite Hurl, Hu, Hid, Ht, Htr, Hg. reflexivity.
Qed.

Lemma failed_generation_clears_quiz_witness :
  rerun fetch_sample (fun _ => None) radio_first session_ABXD
    (str "https://youtu.be/abc") true true
  = Done {| questions := None; answers := ∅; score := 0 |}.
Proof.
  apply (failed_generation_clears_quiz fetch_sample (fun _ => None) radio_first session_ABXD
           (str "https://youtu.be/abc") (str "abc") (str "first chunk second chunk")).
  - reflexivity.
  - reflexivity.
  - discriminate.
  - left. reflexivity.
Defined.
